(** * Cirque: a single-writer FIFO queue over Go's [container/ring]

    The repository has two variants of the queue.

    - [ringbuffer] (src/ringbuffer.go, repeated as the first file of
      src/unnamed/part_000): a ring of fixed size; a writer that finds the
      ring full waits on the channel [updateCh] until a reader signals a move.
    - [cirque] (second file of src/unnamed/part_000): the same two heads, but
      a writer that finds the ring full splices fresh slots into the ring
      ([grow]) and keeps the counters [len] and [cap].

    Both are built on [container/ring], a cyclic doubly linked list of
    heap-allocated nodes.  The embedding keeps that shape: a heap of nodes
    addressed by pointers (here: indices into the list of all allocated
    nodes), the heads as pointers into it, and the operations as functions in
    the option monad, where [None] stands for a run-time panic (a type
    assertion on a nil [Value], or a dereference of memory that was never
    allocated).

    The element type [T] stands for a Go type that is not an interface type
    (the repository's test instantiates it with [int]): boxing such an item
    into the field [Value] of type [any] never gives the nil interface, so a
    written slot is [Some item] and only a slot that was never written is
    [None].  The growing queue instantiated with an interface type, where an
    item can be nil, is modelled beside it ([cirque.write_iface] and the
    functions built on it).

    Go's [int] counters [len] and [cap] count slots that live in memory, so
    they stay far below 2^63; they are modelled in [Z] without wrap-around.

    [Enqueue], [Dequeue], [WriteOrWait] up to its wait, and [Read] are
    modelled as whole calls: that is the program used sequentially, no call
    overlapping another.  The mutexes [readMu]/[mu] serialise [Dequeue]/[Read]
    among themselves and with [grow], but the writer holds no lock; what
    happens when a reader runs between two steps of the writer is modelled
    apart, by cutting a call where the other goroutine comes in
    ([cirque.Enqueue_item_load] and [cirque.Enqueue_item_store] for the
    counter [len]; [ringbuffer.Read_iter_to_send], [ringbuffer.Read_from_send]
    and [ringbuffer.park] for the signal on [updateCh]). *)

From Stdlib Require Import ZArith Lia.
From stdpp Require Import base tactics option numbers list sets.

Set Warnings "-clear-no-such-hyp".

(* ===================================================================== *)
(** * Part I: definitions *)
(* ===================================================================== *)

(** ** container/ring *)

Module ring.
Section defs.
Variable V : Type.

(** [type Ring struct { next, prev *Ring; Value any }].  [Value = None] is
    the nil interface of a slot that was never written.  [ring.New] links
    every node it allocates, so the lazy [init] branch that [Next], [Prev]
    and [Link] take on a zero [Ring] is never reached and the links are
    plain pointers. *)
Record Ring : Type := mkRing { next : nat; prev : nat; Value : option V }.

(** The heap: all nodes allocated so far; a pointer is an index. *)
Abbreviation heap := (list Ring).

(** The [i]-th of the [n] nodes that [New] allocates from address [base]
    on: each points forward to the following node and back to the
    preceding one, the last forward to the first, the first back to the
    last. *)
Definition fresh_node (base n i : nat) : Ring :=
  {| next := if decide (S i = n) then base else base + S i;
     prev := if decide (i = 0) then base + (n - 1) else base + (i - 1);
     Value := None |}.

(** [func New(n int) *Ring]: nil when [n <= 0], else a ring of [n] nodes. *)
Definition New (h : heap) (n : Z) : heap * option nat :=
  if decide (n ≤ 0)%Z then (h, None)
  else (h ++ (fresh_node (length h) (Z.to_nat n) <$> seq 0 (Z.to_nat n)),
        Some (length h)).

(** [r.Next()], [r.Prev()] and the field [r.Value]. *)
Definition Next (h : heap) (r : nat) : option nat := next <$> h !! r.
Definition Prev (h : heap) (r : nat) : option nat := prev <$> h !! r.
Definition get_Value (h : heap) (r : nat) : option (option V) := Value <$> h !! r.

(** Assignments [r.next = a], [r.prev = a], [r.Value = v]. *)
Definition set_next (h : heap) (r a : nat) : option heap :=
  nd ← h !! r; Some (<[r := mkRing a (prev nd) (Value nd)]> h).
Definition set_prev (h : heap) (r a : nat) : option heap :=
  nd ← h !! r; Some (<[r := mkRing (next nd) a (Value nd)]> h).
Definition set_Value (h : heap) (r : nat) (v : option V) : option heap :=
  nd ← h !! r; Some (<[r := mkRing (next nd) (prev nd) v]> h).

(** [func (r *Ring) Link(s *Ring) *Ring]:
    [n := r.Next(); if s != nil { p := s.Prev(); r.next = s; s.prev = r;
     n.prev = p; p.next = n }; return n]. *)
Definition Link (h : heap) (r : nat) (s : option nat) : option (heap * nat) :=
  n ← Next h r;
  match s with
  | None => Some (h, n)
  | Some s =>
      p ← Prev h s;
      h1 ← set_next h r s;
      h2 ← set_prev h1 s r;
      h3 ← set_prev h2 n p;
      h4 ← set_next h3 p n;
      Some (h4, n)
  end.

(** *** What it means for the heap to hold a ring *)

(** [a]'s forward pointer is [b] and [b]'s backward pointer is [a]. *)
Definition link (h : heap) (a b : nat) : Prop :=
  Next h a = Some b ∧ Prev h b = Some a.

(** From [a], the nodes [l] follow one another. *)
Fixpoint path (h : heap) (a : nat) (l : list nat) : Prop :=
  match l with
  | [] => True
  | b :: l' => link h a b ∧ path h b l'
  end.

(** The node a path ends at. *)
Fixpoint end_of (a : nat) (l : list nat) : nat :=
  match l with
  | [] => a
  | b :: l' => end_of b l'
  end.

(** [cyc] lists, in [Next] order and without repetition, the nodes of one
    closed cycle. *)
Definition is_ring (h : heap) (cyc : list nat) : Prop :=
  NoDup cyc ∧
  match cyc with
  | [] => False
  | a :: l => path h a (l ++ [a])
  end.

(** A ring with a read head [r] and a write head [w]: starting at the read
    head, the ring consists of the unread slots [U], then the slot under
    the write head, then the free slots [F]. *)
Definition queue_at (h : heap) (r w : nat) (U F : list nat) : Prop :=
  is_ring h (U ++ w :: F) ∧ r = hd w U.

(** The slots from [a] up to, and excluding, [w], found by following
    [Next] for at most [fuel] steps. *)
Fixpoint walk (h : heap) (fuel : nat) (a w : nat) : option (list nat) :=
  if decide (a = w) then Some []
  else match fuel with
       | O => None
       | S fuel' => n ← Next h a; l ← walk h fuel' n w; Some (a :: l)
       end.

(** [func (r *Ring) Len() int] for a non-nil [r]:
    [n := 1; for p := r.Next(); p != r; p = p.next { n++ }; return n],
    with at most [fuel] rounds of the loop. *)
Definition Len (h : heap) (fuel : nat) (r : nat) : option nat :=
  p ← Next h r; l ← walk h fuel p r; Some (S (length l)).
End defs.

Arguments mkRing {V}.
Arguments next {V}.
Arguments prev {V}.
Arguments Value {V}.
Arguments fresh_node {V}.
Arguments New {V}.
Arguments Next {V}.
Arguments Prev {V}.
Arguments get_Value {V}.
Arguments set_next {V}.
Arguments set_prev {V}.
Arguments set_Value {V}.
Arguments Link {V}.
Arguments link {V}.
Arguments path {V}.
Arguments is_ring {V}.
Arguments end_of : simpl nomatch.
Arguments queue_at {V}.
Arguments walk {V}.
Arguments Len {V}.
End ring.

(** ** The growing queue (package cirque, growing variant) *)

Module cirque.
Section defs.
Variable T : Type.

(** [type Cirque[T any] struct { writeHead, readHead *ring.Ring;
    readMu sync.Mutex; len, cap int }], together with the heap the two
    pointers point into. *)
Record Cirque : Type := mkCirque {
  mem : list (ring.Ring T);
  writeHead : nat;
  readHead : nat;
  len : Z;
  cap : Z
}.

Definition set_mem (cq : Cirque) (h : list (ring.Ring T)) : Cirque :=
  mkCirque h (writeHead cq) (readHead cq) (len cq) (cap cq).
Definition set_writeHead (cq : Cirque) (a : nat) : Cirque :=
  mkCirque (mem cq) a (readHead cq) (len cq) (cap cq).
Definition set_readHead (cq : Cirque) (a : nat) : Cirque :=
  mkCirque (mem cq) (writeHead cq) a (len cq) (cap cq).
Definition set_len (cq : Cirque) (n : Z) : Cirque :=
  mkCirque (mem cq) (writeHead cq) (readHead cq) n (cap cq).
Definition set_cap (cq : Cirque) (n : Z) : Cirque :=
  mkCirque (mem cq) (writeHead cq) (readHead cq) (len cq) n.

(** [func New[T any](n int) *Cirque[T]]; [None] is the nil result. *)
Definition New (n : Z) : option Cirque :=
  if decide (n ≤ 0)%Z then None
  else
    let '(h, r) := ring.New (V := T) [] n in
    r ← r; Some (mkCirque h r r 0%Z n).

Definition Len (cq : Cirque) : Z := len cq.

Definition getReaderHead (cq : Cirque) : nat := readHead cq.
Definition getWriterHead (cq : Cirque) : nat := writeHead cq.

Definition moveWriterHeadForward (cq : Cirque) : option Cirque :=
  n ← ring.Next (mem cq) (writeHead cq); Some (set_writeHead cq n).
Definition moveReaderHeadForward (cq : Cirque) : option Cirque :=
  n ← ring.Next (mem cq) (readHead cq); Some (set_readHead cq n).

(** [h := cq.getWriterHead(); h.Value = item]. *)
Definition write (cq : Cirque) (item : T) : option Cirque :=
  h ← ring.set_Value (mem cq) (getWriterHead cq) (Some item);
  Some (set_mem cq h).

(** [return cq.getReaderHead().Value.(T)]: panics on a nil [Value]. *)
Definition read (cq : Cirque) : option T :=
  v ← ring.get_Value (mem cq) (getReaderHead cq); v.

(** [grow]: a negative [min] is logged and ignored; otherwise a new ring
    of [min] slots is linked in after the write head and [cap] grows by
    [min].  ([ring.New(0)] is nil and [Link(nil)] links nothing.) *)
Definition grow (cq : Cirque) (min : Z) : option Cirque :=
  if decide (min < 0)%Z then Some cq
  else
    let '(h1, newRing) := ring.New (mem cq) min in
    '(h2, _) ← ring.Link h1 (writeHead cq) newRing;
    Some (set_cap (set_mem cq h2) (cap cq + min)%Z).

(** The test [cq.getWriterHead().Next() == cq.getReaderHead()]. *)
Definition full (cq : Cirque) : option bool :=
  n ← ring.Next (mem cq) (getWriterHead cq);
  Some (bool_decide (n = getReaderHead cq)).

(** One iteration of the loop of [Enqueue]; [b] is [len(elements)]. *)
Definition Enqueue_item (b : Z) (cq : Cirque) (item : T) : option Cirque :=
  f ← full cq;
  cq1 ← (if (f : bool) then grow cq (cap cq + b)%Z else Some cq);
  cq2 ← write cq1 item;
  moveWriterHeadForward (set_len cq2 (len cq2 + 1)%Z).

Fixpoint Enqueue_loop (b : Z) (cq : Cirque) (items : list T) : option Cirque :=
  match items with
  | [] => Some cq
  | item :: rest => cq' ← Enqueue_item b cq item; Enqueue_loop b cq' rest
  end.

(** [func (cq *Cirque[T]) Enqueue(elements ...T)]. *)
Definition Enqueue (cq : Cirque) (elements : list T) : option Cirque :=
  Enqueue_loop (Z.of_nat (length elements)) cq elements.

(** The loop of [Dequeue] with [i] iterations to go. *)
Fixpoint Dequeue_loop (i : nat) (cq : Cirque) (result : list T)
  : option (Cirque * list T) :=
  match i with
  | O => Some (cq, result)
  | S i' =>
      if decide (getReaderHead cq = getWriterHead cq) then Some (cq, result)
      else
        v ← read cq;
        cq1 ← moveReaderHeadForward (set_len cq (len cq - 1)%Z);
        Dequeue_loop i' cq1 (result ++ [v])
  end.

(** [func (cq *Cirque[T]) Dequeue(n int) []T]; the nil slice is [[]]. *)
Definition Dequeue (cq : Cirque) (n : Z) : option (Cirque * list T) :=
  if decide (n ≤ 0)%Z then Some (cq, [])
  else Dequeue_loop (Z.to_nat n) cq [].

(** *** The update of [len] with a reader running *)

(** [cq.len++] is not one step: the writer loads [cq.len] and afterwards
    stores the loaded value plus one, and it holds no lock meanwhile.  This
    is an iteration of the loop of [Enqueue] up to and including the load;
    the second component is the value loaded. *)
Definition Enqueue_item_load (b : Z) (cq : Cirque) (item : T) : option (Cirque * Z) :=
  f ← full cq;
  cq1 ← (if (f : bool) then grow cq (cap cq + b)%Z else Some cq);
  cq2 ← write cq1 item;
  Some (cq2, len cq2).

(** The rest of the iteration, from the store on: [cq] is the state the queue
    is in by then. *)
Definition Enqueue_item_store (cq : Cirque) (loaded : Z) : option Cirque :=
  moveWriterHeadForward (set_len cq (loaded + 1)%Z).

(** *** An interface type as element type *)

(** When the type parameter of [Cirque] is an interface type (as in
    [New[any](n)]), an item is nil or a value that is not nil.  Below, [T] is
    the type of the values that are not nil and an item is an [option T],
    [None] for nil.  [h.Value = item] then stores the item as it is: a nil
    item leaves [Value] nil. *)
Definition write_iface (cq : Cirque) (item : option T) : option Cirque :=
  h ← ring.set_Value (mem cq) (getWriterHead cq) item;
  Some (set_mem cq h).

(** [return cq.getReaderHead().Value.(T)]: the assertion panics on a nil
    [Value], whatever the type asserted; otherwise it gives the value back. *)
Definition read_iface (cq : Cirque) : option (option T) :=
  v ← ring.get_Value (mem cq) (getReaderHead cq); d ← v; Some (Some d).

Definition Enqueue_item_iface (b : Z) (cq : Cirque) (item : option T) : option Cirque :=
  f ← full cq;
  cq1 ← (if (f : bool) then grow cq (cap cq + b)%Z else Some cq);
  cq2 ← write_iface cq1 item;
  moveWriterHeadForward (set_len cq2 (len cq2 + 1)%Z).

Fixpoint Enqueue_loop_iface (b : Z) (cq : Cirque) (items : list (option T))
  : option Cirque :=
  match items with
  | [] => Some cq
  | item :: rest => cq' ← Enqueue_item_iface b cq item; Enqueue_loop_iface b cq' rest
  end.

Definition Enqueue_iface (cq : Cirque) (elements : list (option T)) : option Cirque :=
  Enqueue_loop_iface (Z.of_nat (length elements)) cq elements.

Fixpoint Dequeue_loop_iface (i : nat) (cq : Cirque) (result : list (option T))
  : option (Cirque * list (option T)) :=
  match i with
  | O => Some (cq, result)
  | S i' =>
      if decide (getReaderHead cq = getWriterHead cq) then Some (cq, result)
      else
        v ← read_iface cq;
        cq1 ← moveReaderHeadForward (set_len cq (len cq - 1)%Z);
        Dequeue_loop_iface i' cq1 (result ++ [v])
  end.

Definition Dequeue_iface (cq : Cirque) (n : Z) : option (Cirque * list (option T)) :=
  if decide (n ≤ 0)%Z then Some (cq, [])
  else Dequeue_loop_iface (Z.to_nat n) cq [].

(** *** Sequential use *)

Inductive op : Type :=
| OpEnqueue (elements : list T)
| OpDequeue (n : Z).

(** Run the calls [ops] one after the other; the second component collects
    what the [Dequeue] calls returned, in call order. *)
Fixpoint run (cq : Cirque) (ops : list op) : option (Cirque * list (list T)) :=
  match ops with
  | [] => Some (cq, [])
  | OpEnqueue elements :: ops' => cq' ← Enqueue cq elements; run cq' ops'
  | OpDequeue n :: ops' =>
      '(cq', out) ← Dequeue cq n;
      '(cq'', outs) ← run cq' ops';
      Some (cq'', out :: outs)
  end.

(** All items passed to [Enqueue] by [ops], in call order. *)
Definition enqueued (ops : list op) : list T :=
  concat (omap (λ o, match o with OpEnqueue e => Some e | OpDequeue _ => None end) ops).

(** The states a queue can be in: it was constructed by [New] and then
    used through [Enqueue] and [Dequeue]. *)
Inductive reachable : Cirque → Prop :=
| reach_New n cq : New n = Some cq → reachable cq
| reach_Enqueue cq elements cq' :
    reachable cq → Enqueue cq elements = Some cq' → reachable cq'
| reach_Dequeue cq n cq' out :
    reachable cq → Dequeue cq n = Some (cq', out) → reachable cq'.

(** The representation invariant: the heap holds a ring of [cap] slots,
    the [len] slots [U] from the read head up to the write head hold the
    items [q] (oldest first), and [F] are the free slots after the write
    head. *)
Definition Inv (cq : Cirque) (U F : list nat) (q : list T) : Prop :=
  ring.queue_at (mem cq) (readHead cq) (writeHead cq) U F ∧
  ring.get_Value (mem cq) <$> U = (λ v, Some (Some v)) <$> q ∧
  len cq = Z.of_nat (length U) ∧
  cap cq = Z.of_nat (length (U ++ writeHead cq :: F)).
End defs.

Arguments mkCirque {T}.
Arguments mem {T}.
Arguments writeHead {T}.
Arguments readHead {T}.
Arguments len {T}.
Arguments cap {T}.
Arguments set_mem {T}.
Arguments set_writeHead {T}.
Arguments set_readHead {T}.
Arguments set_len {T}.
Arguments set_cap {T}.
Arguments Len {T}.
Arguments getReaderHead {T}.
Arguments getWriterHead {T}.
Arguments moveWriterHeadForward {T}.
Arguments moveReaderHeadForward {T}.
Arguments write {T}.
Arguments read {T}.
Arguments grow {T}.
Arguments full {T}.
Arguments Enqueue_item {T}.
Arguments Enqueue_loop {T}.
Arguments Enqueue {T}.
Arguments Dequeue_loop {T}.
Arguments Dequeue {T}.
Arguments Enqueue_item_load {T}.
Arguments Enqueue_item_store {T}.
Arguments write_iface {T}.
Arguments read_iface {T}.
Arguments Enqueue_item_iface {T}.
Arguments Enqueue_loop_iface {T}.
Arguments Enqueue_iface {T}.
Arguments Dequeue_loop_iface {T}.
Arguments Dequeue_iface {T}.
Arguments OpEnqueue {T}.
Arguments OpDequeue {T}.
Arguments run {T}.
Arguments enqueued {T}.
Arguments reachable {T}.
Arguments Inv {T}.
End cirque.

(** ** The blocking queue (package ringbuffer; the fixed-size Cirque) *)

Module ringbuffer.
Section defs.
Variable T : Type.

(** Where the single writer goroutine stands.
    - [Idle]: not inside [WriteOrWait].
    - [Parked items]: blocked in the receive [<-rb.updateCh] of the loop
      iteration for the first of [items]; the others are the items the
      loop has still to visit.
    - [Woken items]: the receive has returned, the goroutine is about to
      run [rb.write(item)] for the first of [items]. *)
Inductive writer : Type :=
| Idle
| Parked (items : list T)
| Woken (items : list T).

(** [type RingBuffer[T any] struct { writeHead, readHead *ring.Ring;
    mu sync.Mutex; updateCh chan struct{} }] with the heap.  A slot's
    [Value] is a pointer to an [atomic.Value], which is empty ([None]) or
    holds an item.  [updateCh] is unbuffered, so all there is to its state
    is whether the writer is parked on it: that is [wr]. *)
Record RingBuffer : Type := mkRingBuffer {
  mem : list (ring.Ring (option T));
  writeHead : nat;
  readHead : nat;
  wr : writer
}.

Definition set_mem (rb : RingBuffer) (h : list (ring.Ring (option T))) : RingBuffer :=
  mkRingBuffer h (writeHead rb) (readHead rb) (wr rb).
Definition set_writeHead (rb : RingBuffer) (a : nat) : RingBuffer :=
  mkRingBuffer (mem rb) a (readHead rb) (wr rb).
Definition set_readHead (rb : RingBuffer) (a : nat) : RingBuffer :=
  mkRingBuffer (mem rb) (writeHead rb) a (wr rb).
Definition set_wr (rb : RingBuffer) (w : writer) : RingBuffer :=
  mkRingBuffer (mem rb) (writeHead rb) (readHead rb) w.

(** [func New[T any](n int) *RingBuffer[T]]; [None] is the nil result. *)
Definition New (n : Z) : option RingBuffer :=
  if decide (n ≤ 0)%Z then None
  else
    let '(h, r) := ring.New (V := option T) [] n in
    r ← r; Some (mkRingBuffer h r r Idle).

Definition getReaderHead (rb : RingBuffer) : nat := readHead rb.
Definition getWriterHead (rb : RingBuffer) : nat := writeHead rb.

Definition moveWriterHeadForward (rb : RingBuffer) : option RingBuffer :=
  n ← ring.Next (mem rb) (writeHead rb); Some (set_writeHead rb n).

(** The non-blocking send [select { case rb.updateCh <- struct{}{}:
    default: }]: received if the writer is parked, dropped otherwise. *)
Definition notify (w : writer) : writer :=
  match w with
  | Parked items => Woken items
  | _ => w
  end.

Definition moveReaderHeadForward (rb : RingBuffer) : option RingBuffer :=
  n ← ring.Next (mem rb) (readHead rb);
  Some (set_wr (set_readHead rb n) (notify (wr rb))).

(** [h := rb.getWriterHead(); if h.Value == nil { h.Value = &atomic.Value{} }],
    then [Store(item)] on [h.Value] asserted to be a pointer to an
    [atomic.Value]. *)
Definition write (rb : RingBuffer) (item : T) : option RingBuffer :=
  let h := getWriterHead rb in
  v ← ring.get_Value (mem rb) h;
  m1 ← (if v is None then ring.set_Value (mem rb) h (Some None) else Some (mem rb));
  box ← ring.get_Value m1 h;
  _ ← box;
  m2 ← ring.set_Value m1 h (Some (Some item));
  Some (set_mem rb m2).

(** [rb.getReaderHead().Value], asserted to be a pointer to an
    [atomic.Value], then [Load().(T)]: panics on a nil [Value] and on an
    empty [atomic.Value]. *)
Definition read (rb : RingBuffer) : option T :=
  v ← ring.get_Value (mem rb) (getReaderHead rb); box ← v; box.

(** The test [rb.getWriterHead().Next() == rb.getReaderHead()]. *)
Definition full (rb : RingBuffer) : option bool :=
  n ← ring.Next (mem rb) (getWriterHead rb);
  Some (bool_decide (n = getReaderHead rb)).

(** The rest of an iteration of the loop of [WriteOrWait], from
    [rb.write(item)] on. *)
Definition write_and_move (rb : RingBuffer) (item : T) : option RingBuffer :=
  rb1 ← write rb item; moveWriterHeadForward rb1.

(** The loop of [WriteOrWait] over the items still to visit, run until it
    returns or parks on the channel. *)
Fixpoint WriteOrWait_loop (rb : RingBuffer) (items : list T) : option RingBuffer :=
  match items with
  | [] => Some (set_wr rb Idle)
  | item :: rest =>
      f ← full rb;
      if (f : bool) then Some (set_wr rb (Parked (item :: rest)))
      else rb1 ← write_and_move rb item; WriteOrWait_loop rb1 rest
  end.

(** [func (rb *RingBuffer[T]) WriteOrWait(newItems []T)], up to its return
    or its first wait. *)
Definition WriteOrWait (rb : RingBuffer) (newItems : list T) : option RingBuffer :=
  WriteOrWait_loop rb newItems.

(** The writer goes on after its receive has returned: the code after
    [<-rb.updateCh] is [rb.write(item)], then the move, then the next
    iterations. *)
Definition resume (rb : RingBuffer) : option RingBuffer :=
  match wr rb with
  | Woken (item :: rest) =>
      rb1 ← write_and_move rb item; WriteOrWait_loop rb1 rest
  | _ => Some rb
  end.

(** The loop of [Read] with [i] iterations to go. *)
Fixpoint Read_loop (i : nat) (rb : RingBuffer) (result : list T)
  : option (RingBuffer * list T) :=
  match i with
  | O => Some (rb, result)
  | S i' =>
      if decide (getReaderHead rb = getWriterHead rb) then Some (rb, result)
      else
        v ← read rb;
        rb1 ← moveReaderHeadForward rb;
        Read_loop i' rb1 (result ++ [v])
  end.

(** [func (rb *RingBuffer[T]) Read(n int) []T]; the nil slice is [[]]. *)
Definition Read (rb : RingBuffer) (n : Z) : option (RingBuffer * list T) :=
  if decide (n ≤ 0)%Z then Some (rb, [])
  else Read_loop (Z.to_nat n) rb [].

(** *** The reader and the writer step by step *)

(** [moveReaderHeadForward] is two statements.  The first,
    [rb.moveHeadForward(&rb.readHead)], stores the new read head. *)
Definition storeReaderHead (rb : RingBuffer) : option RingBuffer :=
  n ← ring.Next (mem rb) (readHead rb); Some (set_readHead rb n).

(** The second is the [select] with its non-blocking send. *)
Definition trySend (rb : RingBuffer) : RingBuffer :=
  set_wr rb (notify (wr rb)).

(** An iteration of the loop of [Read] whose emptiness test has failed, up to
    the point between the two: the item is read and appended and the read
    head is stored, the [select] is still to come. *)
Definition Read_iter_to_send (rb : RingBuffer) (result : list T)
  : option (RingBuffer * list T) :=
  v ← read rb;
  rb1 ← storeReaderHead rb;
  Some (rb1, result ++ [v]).

(** The rest of [Read] from that [select] on, with [i] iterations to go; [rb]
    is the state the queue is in by then. *)
Definition Read_from_send (i : nat) (rb : RingBuffer) (result : list T)
  : option (RingBuffer * list T) :=
  Read_loop i (trySend rb) result.

(** In [WriteOrWait] the fullness test and the receive are two statements
    too.  This is the receive [<-rb.updateCh] of a writer that found the ring
    full and has the items [items] to write: it parks, in the state [rb] the
    queue is in by then. *)
Definition park (rb : RingBuffer) (items : list T) : RingBuffer :=
  set_wr rb (Parked items).

(** The states of a queue of [n] slots with one writer: constructed by
    [New n], then [WriteOrWait] is called only when no call of it is under
    way, [Read] at any time, and a woken writer goes on at any time; each of
    the three runs as a whole, to its return or to its wait, before the next
    starts. *)
Inductive reachable (n : Z) : RingBuffer → Prop :=
| reach_New rb : New n = Some rb → reachable n rb
| reach_WriteOrWait rb newItems rb' :
    reachable n rb → wr rb = Idle → WriteOrWait rb newItems = Some rb' →
    reachable n rb'
| reach_Read rb m rb' out :
    reachable n rb → Read rb m = Some (rb', out) → reachable n rb'
| reach_resume rb rb' :
    reachable n rb → resume rb = Some rb' → reachable n rb'.

(** The items a writer still has to write. *)
Definition pending (w : writer) : list T :=
  match w with
  | Idle => []
  | Parked items => items
  | Woken items => items
  end.

(** The same states with their history: [trace n rb given got] when [rb] is
    reached after the items [given] were passed to [WriteOrWait], call by
    call, and the items [got] were returned by [Read], call by call. *)
Inductive trace (n : Z) : RingBuffer → list T → list T → Prop :=
| trace_New rb : New n = Some rb → trace n rb [] []
| trace_WriteOrWait rb given got newItems rb' :
    trace n rb given got → wr rb = Idle → WriteOrWait rb newItems = Some rb' →
    trace n rb' (given ++ newItems) got
| trace_Read rb given got m rb' out :
    trace n rb given got → Read rb m = Some (rb', out) →
    trace n rb' given (got ++ out)
| trace_resume rb given got rb' :
    trace n rb given got → resume rb = Some rb' → trace n rb' given got.

(** The representation invariant: the unread slots [U] hold the items [q],
    oldest first; [F] are the free slots after the write head. *)
Definition Inv (rb : RingBuffer) (U F : list nat) (q : list T) : Prop :=
  ring.queue_at (mem rb) (readHead rb) (writeHead rb) U F ∧
  ring.get_Value (mem rb) <$> U = (λ v, Some (Some (Some v))) <$> q.
End defs.

Arguments mkRingBuffer {T}.
Arguments Idle {T}.
Arguments Parked {T}.
Arguments Woken {T}.
Arguments mem {T}.
Arguments writeHead {T}.
Arguments readHead {T}.
Arguments wr {T}.
Arguments set_mem {T}.
Arguments set_writeHead {T}.
Arguments set_readHead {T}.
Arguments set_wr {T}.
Arguments getReaderHead {T}.
Arguments getWriterHead {T}.
Arguments moveWriterHeadForward {T}.
Arguments notify {T}.
Arguments moveReaderHeadForward {T}.
Arguments write {T}.
Arguments read {T}.
Arguments full {T}.
Arguments write_and_move {T}.
Arguments WriteOrWait_loop {T}.
Arguments WriteOrWait {T}.
Arguments resume {T}.
Arguments Read_loop {T}.
Arguments Read {T}.
Arguments storeReaderHead {T}.
Arguments trySend {T}.
Arguments Read_iter_to_send {T}.
Arguments Read_from_send {T}.
Arguments park {T}.
Arguments reachable {T}.
Arguments pending {T}.
Arguments trace {T}.
Arguments Inv {T}.
End ringbuffer.

(** ** Example states *)

(** The growing queue after [New(2)] and [Enqueue(7)]: slot 0 holds the
    item, the write head is on slot 1, and no free slot is left. *)
Definition cirque_example : cirque.Cirque Z :=
  cirque.mkCirque [ring.mkRing 1 1 (Some 7%Z); ring.mkRing 0 0 None] 1 0 1 2.

(** The blocking queue of four slots after [WriteOrWait] of 10, 20, 30, 40
    and a [Read(1)]: the read has woken the writer parked on 40. *)
Definition ringbuffer_woken : ringbuffer.RingBuffer Z :=
  ringbuffer.mkRingBuffer
    [ring.mkRing 1 3 (Some (Some 10%Z)); ring.mkRing 2 0 (Some (Some 20%Z));
     ring.mkRing 3 1 (Some (Some 30%Z)); ring.mkRing 0 2 None]
    3 1 (ringbuffer.Woken [40%Z]).

(* ===================================================================== *)
(** * Part II: properties *)
(* ===================================================================== *)

(** ** Reading and writing the fields of a node *)

Section ring_fields.
Context {V : Type}.
Implicit Types (h : list (ring.Ring V)) (r a x : nat).

Lemma Next_is_Some h x : is_Some (ring.Next h x) ↔ x < length h.
Proof. unfold ring.Next. rewrite fmap_is_Some. apply lookup_lt_is_Some. Qed.

Lemma Prev_is_Some h x : is_Some (ring.Prev h x) ↔ x < length h.
Proof. unfold ring.Prev. rewrite fmap_is_Some. apply lookup_lt_is_Some. Qed.

Lemma set_next_spec h r a h' :
  ring.set_next h r a = Some h' →
  length h' = length h ∧
  (∀ x, ring.Next h' x = if decide (x = r) then Some a else ring.Next h x) ∧
  (∀ x, ring.Prev h' x = ring.Prev h x) ∧
  (∀ x, ring.get_Value h' x = ring.get_Value h x).
Proof.
  unfold ring.set_next, ring.Next, ring.Prev, ring.get_Value.
  intros Hs. destruct (h !! r) as [nd|] eqn:Hr; simplify_eq/=.
  pose proof (lookup_lt_Some _ _ _ Hr) as Hlt.
  split; [by rewrite length_insert|].
  repeat split; intros x; try case_decide; subst;
    rewrite ?list_lookup_insert_eq by done; try done;
    destruct (decide (x = r)) as [->|Hne];
    rewrite ?list_lookup_insert_eq, ?Hr by done; try done;
    by rewrite list_lookup_insert_ne by done.
Qed.

Lemma set_prev_spec h r a h' :
  ring.set_prev h r a = Some h' →
  length h' = length h ∧
  (∀ x, ring.Prev h' x = if decide (x = r) then Some a else ring.Prev h x) ∧
  (∀ x, ring.Next h' x = ring.Next h x) ∧
  (∀ x, ring.get_Value h' x = ring.get_Value h x).
Proof.
  unfold ring.set_prev, ring.Next, ring.Prev, ring.get_Value.
  intros Hs. destruct (h !! r) as [nd|] eqn:Hr; simplify_eq/=.
  pose proof (lookup_lt_Some _ _ _ Hr) as Hlt.
  split; [by rewrite length_insert|].
  repeat split; intros x; try case_decide; subst;
    rewrite ?list_lookup_insert_eq by done; try done;
    destruct (decide (x = r)) as [->|Hne];
    rewrite ?list_lookup_insert_eq, ?Hr by done; try done;
    by rewrite list_lookup_insert_ne by done.
Qed.

Lemma set_Value_spec h r v h' :
  ring.set_Value h r v = Some h' →
  length h' = length h ∧
  (∀ x, ring.get_Value h' x = if decide (x = r) then Some v else ring.get_Value h x) ∧
  (∀ x, ring.Next h' x = ring.Next h x) ∧
  (∀ x, ring.Prev h' x = ring.Prev h x).
Proof.
  unfold ring.set_Value, ring.Next, ring.Prev, ring.get_Value.
  intros Hs. destruct (h !! r) as [nd|] eqn:Hr; simplify_eq/=.
  pose proof (lookup_lt_Some _ _ _ Hr) as Hlt.
  split; [by rewrite length_insert|].
  repeat split; intros x; try case_decide; subst;
    rewrite ?list_lookup_insert_eq by done; try done;
    destruct (decide (x = r)) as [->|Hne];
    rewrite ?list_lookup_insert_eq, ?Hr by done; try done;
    by rewrite list_lookup_insert_ne by done.
Qed.

Lemma set_next_is_Some h r a : r < length h → is_Some (ring.set_next h r a).
Proof.
  intros Hlt. unfold ring.set_next.
  destruct (lookup_lt_is_Some_2 h r Hlt) as [nd ->]. by eexists.
Qed.

Lemma set_prev_is_Some h r a : r < length h → is_Some (ring.set_prev h r a).
Proof.
  intros Hlt. unfold ring.set_prev.
  destruct (lookup_lt_is_Some_2 h r Hlt) as [nd ->]. by eexists.
Qed.

Lemma set_Value_is_Some h r v : r < length h → is_Some (ring.set_Value h r v).
Proof.
  intros Hlt. unfold ring.set_Value.
  destruct (lookup_lt_is_Some_2 h r Hlt) as [nd ->]. by eexists.
Qed.
End ring_fields.

(** ** Paths and rings in the heap *)

Section ring_paths.
Context {V : Type}.
Implicit Types (h : list (ring.Ring V)) (a b x y : nat) (l : list nat).

Lemma end_of_app a l1 l2 :
  ring.end_of a (l1 ++ l2) = ring.end_of (ring.end_of a l1) l2.
Proof. revert a. induction l1 as [|b l1 IH]; intros a; simpl; [done|apply IH]. Qed.

Lemma end_of_snoc a l b : ring.end_of a (l ++ [b]) = b.
Proof. by rewrite end_of_app. Qed.

Lemma end_of_elem a l : ring.end_of a l ∈ a :: l.
Proof.
  revert a. induction l as [|b l IH]; intros a; simpl; [set_solver|].
  pose proof (IH b). set_solver.
Qed.

Lemma path_app h a l1 l2 :
  ring.path h a (l1 ++ l2) ↔ ring.path h a l1 ∧ ring.path h (ring.end_of a l1) l2.
Proof.
  revert a. induction l1 as [|b l1 IH]; intros a; simpl; [tauto|].
  rewrite IH. tauto.
Qed.

(** A path survives any change of the heap that leaves alone the forward
    pointers of all its nodes but the last and the backward pointers of all
    but the first. *)
Lemma path_frame h h' a l :
  NoDup (a :: l) →
  (∀ x, x ∈ a :: l → x ≠ ring.end_of a l → ring.Next h' x = ring.Next h x) →
  (∀ y, y ∈ l → ring.Prev h' y = ring.Prev h y) →
  ring.path h a l → ring.path h' a l.
Proof.
  revert a. induction l as [|b l IH]; intros a Hnd Hn Hp; simpl; [done|].
  intros [[Hab Hba] Hl].
  apply NoDup_cons in Hnd as [Ha Hnd].
  split.
  - split.
    + rewrite Hn; [done|set_solver|].
      simpl. intros Heq. apply Ha. rewrite Heq. apply end_of_elem.
    + rewrite Hp; [done|set_solver].
  - apply IH; [done| |set_solver|done].
    intros x Hx Hne. apply Hn; [set_solver|done].
Qed.

(** Every node on a path is allocated. *)
Lemma path_allocated h a l x : ring.path h a l → x ∈ l → x < length h.
Proof.
  revert a. induction l as [|b l IH]; intros a; simpl; [set_solver|].
  intros [[_ Hba] Hl] [->|Hx]%elem_of_cons; [|by eapply IH].
  apply Prev_is_Some. rewrite Hba. by eexists.
Qed.

Lemma is_ring_allocated h cyc x : ring.is_ring h cyc → x ∈ cyc → x < length h.
Proof.
  intros [_ Hp] Hx. destruct cyc as [|a l]; [done|].
  eapply path_allocated; [done|]. set_solver.
Qed.

Lemma is_ring_NoDup h cyc : ring.is_ring h cyc → NoDup cyc.
Proof. by intros [? _]. Qed.

(** The forward pointer of the first node of a ring. *)
Lemma is_ring_Next_hd h a l :
  ring.is_ring h (a :: l) → ring.Next h a = Some (hd a l).
Proof. intros [_ Hp]. destruct l; simpl in *; by destruct Hp as [[? _] _]. Qed.

(** A ring can be listed from any of its nodes. *)
Lemma is_ring_rotate1 h a l : ring.is_ring h (a :: l) → ring.is_ring h (l ++ [a]).
Proof.
  intros [Hnd Hp]. split.
  - apply NoDup_cons in Hnd as [Ha Hl]. apply NoDup_app.
    split_and!; [done|set_solver|apply NoDup_singleton].
  - destruct l as [|b l]; simpl in *; [done|].
    destruct Hp as [Hab Hp]. apply path_app. split; [done|].
    rewrite end_of_snoc. simpl. done.
Qed.

Lemma is_ring_rotate h l1 l2 : ring.is_ring h (l1 ++ l2) → ring.is_ring h (l2 ++ l1).
Proof.
  revert l2. induction l1 as [|a l1 IH]; intros l2 Hr; simpl in *.
  - by rewrite app_nil_r.
  - apply is_ring_rotate1 in Hr. rewrite <-app_assoc in Hr.
    apply IH in Hr. by rewrite <-app_assoc in Hr.
Qed.

(** A path, and so a ring, survives any change of the heap that keeps the
    links of its nodes. *)
Lemma path_frame_all h h' a l :
  (∀ x, x ∈ a :: l → ring.Next h' x = ring.Next h x) →
  (∀ x, x ∈ l → ring.Prev h' x = ring.Prev h x) →
  ring.path h a l → ring.path h' a l.
Proof.
  revert a. induction l as [|b l IH]; intros a Hn Hp; simpl; [done|].
  intros [[Hab Hba] Hl]. split.
  - split; [rewrite Hn|rewrite Hp]; set_solver.
  - apply IH; [set_solver|set_solver|done].
Qed.

Lemma is_ring_frame h h' cyc :
  (∀ x, x ∈ cyc → ring.Next h' x = ring.Next h x) →
  (∀ x, x ∈ cyc → ring.Prev h' x = ring.Prev h x) →
  ring.is_ring h cyc → ring.is_ring h' cyc.
Proof.
  intros Hn Hp [Hnd Hpath]. split; [done|].
  destruct cyc as [|a l]; [done|].
  eapply path_frame_all; [| |done]; set_solver.
Qed.
End ring_paths.

(** ** [ring.New] and [ring.Link] *)

Section ring_New_Link.
Context {V : Type}.
Implicit Types (h : list (ring.Ring V)) (a b x y r s : nat) (l X Y : list nat).

Lemma New_nil h n : (n ≤ 0)%Z → ring.New h n = (h, None).
Proof. intros Hn. unfold ring.New. by rewrite decide_True. Qed.

(** [New] allocates [n] slots at fresh addresses, leaves the nodes that
    exist alone, and links the new ones into a ring of empty slots. *)
Lemma New_spec h (k : nat) :
  0 < k →
  ∃ h', ring.New h (Z.of_nat k) = (h', Some (length h)) ∧
    length h' = length h + k ∧
    (∀ x, x < length h → h' !! x = h !! x) ∧
    (∀ x, x ∈ seq (length h) k → ring.get_Value h' x = Some None) ∧
    ring.is_ring h' (seq (length h) k).
Proof.
  intros Hk. unfold ring.New. rewrite decide_False by lia.
  rewrite Nat2Z.id. eexists. split; [done|].
  set (base := length h).
  set (h' := h ++ (ring.fresh_node base k <$> seq 0 k)).
  assert (Hnew : ∀ i, i < k → h' !! (base + i) = Some (ring.fresh_node (V:=V) base k i)).
  { intros i Hi. unfold h'. rewrite lookup_app_r by (unfold base; lia).
    replace (base + i - length h) with i by (unfold base; lia).
    rewrite list_lookup_fmap, lookup_seq_lt by done. done. }
  split_and!.
  - unfold h'. rewrite length_app, length_fmap, length_seq. done.
  - intros x Hx. unfold h'. by rewrite lookup_app_l.
  - intros x [Hx1 Hx2]%elem_of_seq. unfold ring.get_Value.
    replace x with (base + (x - base)) by lia. rewrite Hnew by lia. done.
  - split; [apply NoDup_seq|].
    destruct k as [|k]; [lia|]. simpl.
    assert (Hpath : ∀ m i, i + m = k →
      ring.path h' (base + i) (seq (S (base + i)) m ++ [base])).
    { induction m as [|m IH]; intros i Him; simpl.
      - split; [|done]. unfold ring.link, ring.Next, ring.Prev.
        rewrite Hnew by lia. replace base with (base + 0) at 3 by lia.
        rewrite Hnew by lia. simpl.
        repeat case_decide; try lia. split; f_equal; lia.
      - split.
        + unfold ring.link, ring.Next, ring.Prev.
          rewrite Hnew by lia. replace (S (base + i)) with (base + S i) by lia.
          rewrite Hnew by lia. simpl.
          repeat case_decide; try lia. split; f_equal; lia.
        + replace (S (base + i)) with (base + S i) by lia. apply IH. lia. }
    specialize (Hpath k 0). rewrite Nat.add_0_r in Hpath. apply Hpath. lia.
Qed.

(** The backward pointer of the first node of a ring. *)
Lemma is_ring_Prev_hd h a l :
  ring.is_ring h (a :: l) → ring.Prev h a = Some (ring.end_of a l).
Proof.
  intros [_ Hp]. apply path_app in Hp as [_ Hp]. simpl in Hp.
  by destruct Hp as [[_ ?] _].
Qed.

Lemma Link_nil h r n : ring.Next h r = Some n → ring.Link h r None = Some (h, n).
Proof. intros Hn. unfold ring.Link. by rewrite Hn. Qed.

(** [r.Link(s)] for [r] and [s] in different rings: the ring of [s] is
    inserted, in its order, between [r] and the node that followed [r];
    no [Value] is touched. *)
Lemma Link_spec h r X s Y :
  ring.is_ring h (r :: X) → ring.is_ring h (s :: Y) →
  (∀ x, x ∈ r :: X → x ∉ s :: Y) →
  ∃ h', ring.Link h r (Some s) = Some (h', hd r X) ∧
    length h' = length h ∧
    (∀ x, ring.get_Value h' x = ring.get_Value h x) ∧
    ring.is_ring h' (r :: s :: Y ++ X).
Proof.
  intros HrX HsY Hdisj.
  pose proof (is_ring_NoDup _ _ HrX) as NDr.
  pose proof (is_ring_NoDup _ _ HsY) as NDs.
  assert (Hn : hd r X ∈ r :: X) by (destruct X; set_solver).
  assert (Hp : ring.end_of s Y ∈ s :: Y) by apply end_of_elem.
  pose proof (is_ring_Next_hd _ _ _ HrX) as HNr.
  pose proof (is_ring_Prev_hd _ _ _ HsY) as HPs.
  assert (Hsplit : ∃ tl, X ++ [r] = hd r X :: tl ∧ NoDup (hd r X :: tl) ∧
            (∀ x, x ∈ hd r X :: tl → x ∈ r :: X) ∧ ring.end_of (hd r X) tl = r).
  { destruct X as [|x0 X0]; simpl.
    - exists []. split_and!; [done|apply NoDup_singleton|set_solver|done].
    - exists (X0 ++ [r]). split_and!; [done| |set_solver|by rewrite end_of_snoc].
      apply NoDup_cons in NDr as [Hr NDX].
      change (NoDup ((x0 :: X0) ++ [r])). apply NoDup_app.
      split_and!; [done|set_solver|apply NoDup_singleton]. }
  destruct Hsplit as (tl & Heq & NDtl & Hsub & Hend).
  remember (hd r X) as n eqn:En. remember (ring.end_of s Y) as p eqn:Ep.
  assert (Hr_a : r < length h) by (eapply is_ring_allocated; [exact HrX|set_solver]).
  assert (Hs_a : s < length h) by (eapply is_ring_allocated; [exact HsY|set_solver]).
  assert (Hn_a : n < length h) by (eapply is_ring_allocated; [exact HrX|done]).
  assert (Hp_a : p < length h) by (eapply is_ring_allocated; [exact HsY|done]).
  destruct (set_next_is_Some h r s Hr_a) as [h1 H1].
  destruct (set_next_spec _ _ _ _ H1) as (L1 & N1 & P1 & V1).
  destruct (set_prev_is_Some h1 s r ltac:(lia)) as [h2 H2].
  destruct (set_prev_spec _ _ _ _ H2) as (L2 & P2 & N2 & V2).
  destruct (set_prev_is_Some h2 n p ltac:(lia)) as [h3 H3].
  destruct (set_prev_spec _ _ _ _ H3) as (L3 & P3 & N3 & V3).
  destruct (set_next_is_Some h3 p n ltac:(lia)) as [h4 H4].
  destruct (set_next_spec _ _ _ _ H4) as (L4 & N4 & P4 & V4).
  exists h4. split_and!.
  - unfold ring.Link. rewrite HNr. simpl. rewrite HPs. simpl.
    rewrite H1. simpl. rewrite H2. simpl. rewrite H3. simpl.
    rewrite H4. done.
  - lia.
  - intros x. by rewrite V4, V3, V2, V1.
  - assert (HN : ∀ x, ring.Next h4 x =
      if decide (x = p) then Some n else if decide (x = r) then Some s else ring.Next h x).
    { intros x. by rewrite N4, N3, N2, N1. }
    assert (HP : ∀ x, ring.Prev h4 x =
      if decide (x = n) then Some p else if decide (x = s) then Some r else ring.Prev h x).
    { intros x. by rewrite P4, P3, P2, P1. }
    clear N1 N2 N3 N4 P1 P2 P3 P4 V1 V2 V3 V4 H1 H2 H3 H4.
    assert (Hrp : r ≠ p) by (intros ->; eapply Hdisj; [|exact Hp]; set_solver).
    assert (Hsn : s ≠ n) by (intros ->; eapply Hdisj; [exact Hn|]; set_solver).
    split.
    { apply NoDup_cons in NDr as [Hr NDX]. apply NoDup_cons in NDs as [Hs NDY].
      apply NoDup_cons. split; [set_solver|].
      apply NoDup_cons. split; [set_solver|].
      apply NoDup_app. split_and!; [done|set_solver|done]. }
    destruct HrX as [_ HpX]. destruct HsY as [_ HpY].
    apply path_app in HpY as [HpY _].
    enough (Hgoal : ring.path h4 r ((s :: Y) ++ (X ++ [r])))
      by (simpl in *; by rewrite <-app_assoc).
    apply path_app. split.
    + simpl. split.
      * split; [rewrite HN|rewrite HP]; repeat case_decide; congruence.
      * eapply path_frame; [exact NDs| | |exact HpY].
        -- intros x Hx Hne. rewrite <-Ep in Hne. rewrite HN.
           rewrite decide_False by done. rewrite decide_False; [done|].
           intros ->. eapply Hdisj; [|exact Hx]. set_solver.
        -- intros y Hy. rewrite HP.
           rewrite decide_False. 2:{ intros ->. eapply Hdisj; [exact Hn|set_solver]. }
           rewrite decide_False; [done|].
           intros ->. apply NoDup_cons in NDs as [Hs _]. done.
    + change (ring.end_of r (s :: Y)) with (ring.end_of s Y). rewrite <-Ep.
      rewrite Heq in HpX |- *. simpl in HpX |- *. destruct HpX as [_ HpX].
      split.
      * split; [rewrite HN|rewrite HP]; repeat case_decide; congruence.
      * eapply path_frame; [exact NDtl| | |exact HpX].
        -- intros x Hx Hne. rewrite Hend in Hne. rewrite HN.
           rewrite decide_False. 2:{ intros ->. eapply Hdisj; [|exact Hp]. by apply Hsub. }
           by rewrite decide_False.
        -- intros y Hy. rewrite HP.
           rewrite decide_False. 2:{ intros ->. by apply NoDup_cons in NDtl as [? _]. }
           rewrite decide_False; [done|].
           intros ->. apply (Hdisj s); [apply Hsub; set_solver|set_solver].
Qed.
End ring_New_Link.

(** ** A ring with two heads *)

Section ring_queue.
Context {V : Type}.
Implicit Types (h : list (ring.Ring V)) (r w u f x : nat) (U F : list nat).

Lemma queue_at_allocated h r w U F x :
  ring.queue_at h r w U F → x ∈ U ++ w :: F → x < length h.
Proof. intros [Hr _]. by apply is_ring_allocated. Qed.

Lemma queue_at_read_head h r w U F :
  ring.queue_at h r w U F → r ∈ U ++ [w].
Proof. intros [_ ->]. destruct U; set_solver. Qed.

(** The reader's test [readHead == writeHead]: no unread slot. *)
Lemma queue_at_empty h r w U F :
  ring.queue_at h r w U F → (r = w ↔ U = []).
Proof.
  intros [[Hnd _] ->]. destruct U as [|u U]; simpl; [done|].
  split; [|done]. intros ->.
  apply NoDup_cons in Hnd as [Hu _]. set_solver.
Qed.

(** The node after the write head: the first free slot, or the read head
    when there is none. *)
Lemma queue_at_Next_write h r w U F :
  ring.queue_at h r w U F → ring.Next h w = Some (hd r F).
Proof.
  intros [Hr ->]. apply is_ring_rotate in Hr. simpl in Hr.
  apply is_ring_Next_hd in Hr. rewrite Hr. by destruct F, U.
Qed.

(** The writer's test [writeHead.Next() == readHead]: no free slot. *)
Lemma queue_at_full h r w U F :
  ring.queue_at h r w U F → (hd r F = r ↔ F = []).
Proof.
  intros Hq. pose proof (queue_at_read_head _ _ _ _ _ Hq) as Hin.
  destruct Hq as [[Hnd _] _]. destruct F as [|f F]; simpl; [done|].
  split; [|done]. intros ->. exfalso.
  apply NoDup_app in Hnd as (_ & Hd & Hnd).
  apply NoDup_cons in Hnd as [Hw _].
  apply elem_of_app in Hin as [Hin|Hin]; [apply (Hd r Hin)|]; set_solver.
Qed.

(** Moving the write head to a free slot turns the slot it leaves into
    the newest unread one. *)
Lemma queue_at_move_write h r w U f F :
  ring.queue_at h r w U (f :: F) → ring.queue_at h r f (U ++ [w]) F.
Proof.
  intros [Hr ->]. split; [by rewrite <-app_assoc|]. by destruct U.
Qed.

(** Moving the read head frees the oldest unread slot. *)
Lemma queue_at_move_read h r w u U F :
  ring.queue_at h r w (u :: U) F →
  r = u ∧ ring.Next h u = Some (hd w U) ∧
  ring.queue_at h (hd w U) w U (F ++ [u]).
Proof.
  intros [Hr ->]. split; [done|]. split.
  - simpl in Hr. apply is_ring_Next_hd in Hr. rewrite Hr. by destruct U.
  - split; [|done]. apply is_ring_rotate1 in Hr.
    by rewrite <-app_assoc in Hr.
Qed.

Lemma queue_at_frame h h' r w U F :
  (∀ x, ring.Next h' x = ring.Next h x) →
  (∀ x, ring.Prev h' x = ring.Prev h x) →
  ring.queue_at h r w U F → ring.queue_at h' r w U F.
Proof. intros Hn Hp [Hr ->]. split; [|done]. eapply is_ring_frame; eauto. Qed.

(** Growth: [k > 0] fresh slots are linked in after the write head.  The
    heads stay, the unread slots stay, the new slots come first among the
    free ones, and no [Value] that existed changes. *)
Lemma queue_at_grow h r w U F (k : nat) :
  0 < k → ring.queue_at h r w U F →
  ∃ h1 h2 n,
    ring.New h (Z.of_nat k) = (h1, Some (length h)) ∧
    ring.Link h1 w (Some (length h)) = Some (h2, n) ∧
    length h2 = length h + k ∧
    (∀ x, x < length h → ring.get_Value h2 x = ring.get_Value h x) ∧
    (∀ x, x ∈ seq (length h) k → ring.get_Value h2 x = Some None) ∧
    ring.queue_at h2 r w U (seq (length h) k ++ F).
Proof.
  intros Hk [Hr ->].
  destruct (New_spec h k Hk) as (h1 & HNew & Hlen1 & Hold & Hfresh & Hnew).
  assert (Hr1 : ring.is_ring h1 (w :: F ++ U)).
  { apply is_ring_rotate in Hr. simpl in Hr.
    eapply is_ring_frame; [| |exact Hr]; intros x Hx;
      unfold ring.Next, ring.Prev; rewrite Hold; try done;
      eapply is_ring_allocated; eauto. }
  destruct k as [|k]; [lia|]. simpl in Hnew.
  destruct (Link_spec h1 w (F ++ U) (length h) (seq (S (length h)) k) Hr1 Hnew)
    as (h2 & HLink & Hlen2 & Hval & Hr2).
  { intros x Hx Hx'. apply is_ring_rotate in Hr. simpl in Hr.
    pose proof (is_ring_allocated _ _ _ Hr Hx) as Hlt.
    change (x ∈ seq (length h) (S k)) in Hx'.
    apply elem_of_seq in Hx'. lia. }
  exists h1, h2, (hd w (F ++ U)). split_and!; [done|done|lia| | |].
  - intros x Hx. rewrite Hval. unfold ring.get_Value. by rewrite Hold.
  - intros x Hx. rewrite Hval. by apply Hfresh.
  - split; [|done].
    apply (is_ring_rotate h2 (w :: seq (length h) (S k) ++ F) U).
    simpl. rewrite <-app_assoc. exact Hr2.
Qed.
End ring_queue.

(** ** The growing queue: every operation keeps the invariant *)

Section cirque_steps.
Context {T : Type}.
Implicit Types (cq : cirque.Cirque T) (U F : list nat) (q items : list T).

(** [New n] for a positive [n]: an empty queue on a ring of [n] slots. *)
Lemma cirque_New_Inv (n : Z) :
  (0 < n)%Z →
  ∃ cq, cirque.New T n = Some cq ∧
    cirque.Inv cq [] (seq 1 (Z.to_nat n - 1)) [] ∧
    cirque.readHead cq = cirque.writeHead cq ∧ cirque.cap cq = n ∧
    cirque.len cq = 0%Z ∧ length (cirque.mem cq) = Z.to_nat n.
Proof.
  intros Hn. unfold cirque.New. rewrite decide_False by lia.
  destruct (New_spec (V:=T) [] (Z.to_nat n) ltac:(lia))
    as (h' & HNew & Hlen & _ & _ & Hring).
  rewrite Z2Nat.id in HNew by lia. rewrite HNew. simpl.
  eexists. split; [done|]. simpl in *.
  destruct (Z.to_nat n) as [|k] eqn:Hk; [lia|].
  simpl in Hring. replace (S k - 1) with k by lia.
  split_and!; simpl; try done; try lia.
  split_and!; simpl; try done.
  rewrite length_seq. lia.
Qed.

Lemma Inv_lengths cq U F q : cirque.Inv cq U F q → length q = length U.
Proof.
  intros (_ & Hv & _). apply (f_equal length) in Hv.
  by rewrite !length_fmap in Hv.
Qed.

Lemma Inv_Len cq U F q : cirque.Inv cq U F q → cirque.Len cq = Z.of_nat (length q).
Proof.
  intros HI. unfold cirque.Len. rewrite (Inv_lengths _ _ _ _ HI).
  by destruct HI as (_ & _ & -> & _).
Qed.

Lemma Inv_full cq U F q :
  cirque.Inv cq U F q → cirque.full cq = Some (bool_decide (F = [])).
Proof.
  intros (Hq & _). unfold cirque.full, cirque.getWriterHead, cirque.getReaderHead.
  rewrite (queue_at_Next_write _ _ _ _ _ Hq). simpl. f_equal.
  apply bool_decide_ext. by eapply queue_at_full.
Qed.

(** [grow] by a positive amount. *)
Lemma grow_Inv cq U F q (k : Z) :
  (0 < k)%Z → cirque.Inv cq U F q →
  ∃ cq', cirque.grow cq k = Some cq' ∧
    cirque.Inv cq' U (seq (length (cirque.mem cq)) (Z.to_nat k) ++ F) q ∧
    cirque.cap cq' = (cirque.cap cq + k)%Z ∧
    cirque.len cq' = cirque.len cq ∧
    cirque.readHead cq' = cirque.readHead cq ∧
    cirque.writeHead cq' = cirque.writeHead cq ∧
    length (cirque.mem cq') = length (cirque.mem cq) + Z.to_nat k ∧
    (∀ a, a < length (cirque.mem cq) →
       ring.get_Value (cirque.mem cq') a = ring.get_Value (cirque.mem cq) a) ∧
    (∀ a, a ∈ seq (length (cirque.mem cq)) (Z.to_nat k) →
       ring.get_Value (cirque.mem cq') a = Some None).
Proof.
  intros Hk (Hq & Hv & Hlen & Hcap).
  destruct (queue_at_grow _ _ _ _ _ (Z.to_nat k) ltac:(lia) Hq)
    as (h1 & h2 & n & HNew & HLink & Hl2 & Hold & Hfresh & Hq2).
  rewrite Z2Nat.id in HNew by lia.
  unfold cirque.grow. rewrite decide_False by lia. rewrite HNew, HLink. simpl.
  eexists. split; [done|]. split_and!; simpl; try done.
  split_and!; simpl; try done.
  - rewrite <-Hv. apply Forall_fmap_ext, Forall_forall. intros a Ha.
    apply Hold. eapply queue_at_allocated; [exact Hq|]. set_solver.
  - rewrite Hcap. rewrite !length_app. simpl. rewrite length_app, length_seq. lia.
Qed.

(** [write] stores the item in the slot under the write head. *)
Lemma write_spec cq U F q item :
  cirque.Inv cq U F q →
  ∃ cq', cirque.write cq item = Some cq' ∧
    ring.queue_at (cirque.mem cq') (cirque.readHead cq) (cirque.writeHead cq) U F ∧
    ring.get_Value (cirque.mem cq') <$> (U ++ [cirque.writeHead cq])
      = (λ v, Some (Some v)) <$> (q ++ [item]) ∧
    cirque.readHead cq' = cirque.readHead cq ∧
    cirque.writeHead cq' = cirque.writeHead cq ∧
    cirque.len cq' = cirque.len cq ∧ cirque.cap cq' = cirque.cap cq ∧
    length (cirque.mem cq') = length (cirque.mem cq).
Proof.
  intros (Hq & Hv & Hlen & Hcap).
  assert (Hw : cirque.writeHead cq < length (cirque.mem cq)).
  { eapply queue_at_allocated; [exact Hq|]. set_solver. }
  destruct (set_Value_is_Some _ _ (Some item) Hw) as [h' Hset].
  destruct (set_Value_spec _ _ _ _ Hset) as (Hl & HV & HN & HP).
  unfold cirque.write, cirque.getWriterHead. rewrite Hset. simpl.
  eexists. split; [done|]. simpl. split_and!; try done.
  - by eapply queue_at_frame.
  - rewrite !fmap_app. simpl. f_equal.
    + rewrite <-Hv. apply Forall_fmap_ext, Forall_forall. intros a Ha.
      rewrite HV. rewrite decide_False; [done|]. intros ->.
      destruct Hq as [[Hnd _] _]. apply NoDup_app in Hnd as (_ & Hd & _).
      apply (Hd _ Ha). set_solver.
    + rewrite HV. by rewrite decide_True.
Qed.

(** The tail of an iteration of [Enqueue] when a free slot [f] follows the
    write head: the item lands in the slot under the write head, which
    becomes the newest unread slot, and the write head moves to [f]. *)
Lemma write_move_Inv cq U f F q item :
  cirque.Inv cq U (f :: F) q →
  ∃ cq',
    (cq2 ← cirque.write cq item;
     cirque.moveWriterHeadForward (cirque.set_len cq2 (cirque.len cq2 + 1)%Z))
      = Some cq' ∧
    cirque.Inv cq' (U ++ [cirque.writeHead cq]) F (q ++ [item]) ∧
    cirque.cap cq' = cirque.cap cq ∧
    cirque.readHead cq' = cirque.readHead cq ∧
    cirque.writeHead cq' = f ∧
    length (cirque.mem cq') = length (cirque.mem cq).
Proof.
  intros HI.
  destruct (write_spec _ _ _ _ item HI)
    as (cq2 & Hw & Hq2 & Hv2 & Hr2 & Hw2 & Hl2 & Hc2 & Hm2).
  destruct HI as (Hq & Hv & Hlen & Hcap).
  rewrite Hw. simpl. unfold cirque.moveWriterHeadForward. simpl.
  rewrite Hw2, (queue_at_Next_write _ _ _ _ _ Hq2). simpl.
  eexists. split; [done|]. split_and!; simpl; try done.
  split_and!; simpl.
  - rewrite Hr2. by apply queue_at_move_write.
  - done.
  - rewrite Hl2, Hlen, length_app. simpl. lia.
  - rewrite Hc2, Hcap. rewrite <-app_assoc. simpl. rewrite !length_app. simpl. lia.
Qed.

(** One iteration of [Enqueue]: growth exactly when no free slot is left. *)
Lemma Enqueue_item_Inv (b : Z) cq U F q item :
  (0 ≤ b)%Z → cirque.Inv cq U F q →
  ∃ cq' F',
    cirque.Enqueue_item b cq item = Some cq' ∧
    cirque.Inv cq' (U ++ [cirque.writeHead cq]) F' (q ++ [item]) ∧
    cirque.readHead cq' = cirque.readHead cq ∧
    (if decide (F = [])
     then cirque.cap cq' = (2 * cirque.cap cq + b)%Z ∧
          Z.of_nat (length F') = (cirque.cap cq + b - 1)%Z
     else cirque.cap cq' = cirque.cap cq ∧ F' = tail F).
Proof.
  intros Hb HI. unfold cirque.Enqueue_item. rewrite (Inv_full _ _ _ _ HI). simpl.
  case_decide as HF.
  - subst F. rewrite bool_decide_true by done.
    assert (Hcap : (0 < cirque.cap cq)%Z).
    { destruct HI as (_ & _ & _ & ->). rewrite length_app. simpl. lia. }
    destruct (grow_Inv _ _ _ _ (cirque.cap cq + b)%Z ltac:(lia) HI)
      as (cq1 & Hg & HI1 & Hc1 & Hl1 & Hr1 & Hw1 & _).
    rewrite Hg. simpl. rewrite app_nil_r in HI1.
    destruct (Z.to_nat (cirque.cap cq + b)) as [|k] eqn:Hk; [lia|].
    simpl in HI1.
    destruct (write_move_Inv _ _ _ _ _ item HI1)
      as (cq' & Hwm & HI' & Hc' & Hr' & _).
    rewrite Hwm. exists cq', (seq (S (length (cirque.mem cq))) k).
    split; [done|]. rewrite Hw1 in HI'. split_and!; [done|congruence|lia|].
    rewrite length_seq. lia.
  - rewrite bool_decide_false by done. simpl.
    destruct F as [|f F]; [done|].
    destruct (write_move_Inv _ _ _ _ _ item HI)
      as (cq' & Hwm & HI' & Hc' & Hr' & _).
    rewrite Hwm. exists cq', F. done.
Qed.

(** The loop of [Enqueue] over the rest [items] of a batch of [b] items:
    it never fails, it appends [items] in order, and it grows the ring at
    most once, namely when [items] outnumber the free slots. *)
Lemma Enqueue_loop_Inv (b : Z) items : ∀ cq U F q,
  (Z.of_nat (length items) ≤ b)%Z → cirque.Inv cq U F q →
  ∃ cq' U' F',
    cirque.Enqueue_loop b cq items = Some cq' ∧
    cirque.Inv cq' U' F' (q ++ items) ∧
    cirque.readHead cq' = cirque.readHead cq ∧
    cirque.cap cq' =
      (if decide (length items ≤ length F)%nat then cirque.cap cq
       else 2 * cirque.cap cq + b)%Z ∧
    (length items ≤ length F → length F' = length F - length items).
Proof.
  induction items as [|item rest IH]; intros cq U F q Hb HI; simpl.
  - exists cq, U, F. rewrite app_nil_r.
    split_and!; try case_decide; try done; lia.
  - simpl in Hb.
    destruct (Enqueue_item_Inv b _ _ _ _ item ltac:(lia) HI)
      as (cq1 & F1 & Hit & HI1 & Hr1 & Hcase).
    rewrite Hit. simpl.
    destruct (IH cq1 _ F1 _ ltac:(lia) HI1)
      as (cq' & U' & F' & Hloop & HI' & Hr' & Hc' & HF').
    exists cq', U', F'. rewrite <-app_assoc in HI'. simpl in HI'.
    split_and!; [done|done|congruence| |].
    + assert (Hcap : (0 < cirque.cap cq)%Z).
      { destruct HI as (_ & _ & _ & ->). rewrite length_app. simpl. lia. }
      rewrite Hc'. destruct (decide (F = [])) as [->|HF].
      * destruct Hcase as [Hc1 HlF1]. simpl.
        repeat case_decide; lia.
      * destruct Hcase as [Hc1 ->]. destruct F as [|f F]; [done|]. simpl.
        repeat case_decide; lia.
    + intros Hle. destruct (decide (F = [])) as [->|HF]; [simpl in Hle; lia|].
      destruct Hcase as [Hc1 ->]. destruct F as [|f F]; [done|]. simpl in *.
      rewrite HF' by lia. done.
Qed.

Lemma Enqueue_Inv cq U F q elements :
  cirque.Inv cq U F q →
  ∃ cq' U' F',
    cirque.Enqueue cq elements = Some cq' ∧
    cirque.Inv cq' U' F' (q ++ elements) ∧
    cirque.cap cq' =
      (if decide (length elements ≤ length F)%nat then cirque.cap cq
       else 2 * cirque.cap cq + Z.of_nat (length elements))%Z.
Proof.
  intros HI.
  destruct (Enqueue_loop_Inv (Z.of_nat (length elements)) elements
              cq U F q ltac:(lia) HI)
    as (cq' & U' & F' & Hloop & HI' & _ & Hc & _).
  exists cq', U', F'. done.
Qed.

(** The loop of [Dequeue]: it never fails and hands out the oldest items. *)
Lemma Dequeue_loop_Inv (i : nat) : ∀ cq U F q result,
  cirque.Inv cq U F q →
  ∃ cq',
    cirque.Dequeue_loop i cq result = Some (cq', result ++ take i q) ∧
    cirque.Inv cq' (drop i U) (F ++ take i U) (drop i q) ∧
    cirque.mem cq' = cirque.mem cq ∧
    cirque.writeHead cq' = cirque.writeHead cq ∧
    cirque.cap cq' = cirque.cap cq.
Proof.
  induction i as [|i IH]; intros cq U F q result HI; simpl.
  - exists cq. rewrite !drop_0, !app_nil_r. done.
  - pose proof HI as (Hq & Hv & Hlen & Hcap).
    unfold cirque.getReaderHead, cirque.getWriterHead.
    destruct U as [|u U].
    + destruct q as [|v q]; [|done].
      rewrite decide_True by (by eapply queue_at_empty).
      exists cq. simpl. rewrite !app_nil_r. done.
    + destruct q as [|v q]; [done|].
      rewrite decide_False by (by rewrite (queue_at_empty _ _ _ _ _ Hq)).
      destruct (queue_at_move_read _ _ _ _ _ _ Hq) as (Hru & HNu & Hq').
      simpl in Hv. injection Hv as Hvu Hv.
      unfold cirque.read, cirque.getReaderHead. rewrite Hru, Hvu. simpl.
      unfold cirque.moveReaderHeadForward. simpl. rewrite Hru, HNu. simpl.
      set (cq1 := cirque.set_readHead (cirque.set_len cq (cirque.len cq - 1)%Z)
                    (hd (cirque.writeHead cq) U)).
      assert (HI1 : cirque.Inv cq1 U (F ++ [u]) q).
      { split_and!; simpl; try done.
        - rewrite Hlen. simpl. lia.
        - rewrite Hcap. rewrite !length_app. simpl. rewrite length_app. simpl. lia. }
      destruct (IH cq1 U (F ++ [u]) q (result ++ [v]) HI1)
        as (cq' & Hloop & HI' & Hm & Hw & Hc).
      rewrite Hloop. exists cq'. rewrite <-!app_assoc in *. simpl in *.
      split_and!; done.
Qed.

Lemma Dequeue_Inv cq U F q (n : Z) :
  cirque.Inv cq U F q →
  ∃ cq',
    cirque.Dequeue cq n = Some (cq', take (Z.to_nat n) q) ∧
    cirque.Inv cq' (drop (Z.to_nat n) U) (F ++ take (Z.to_nat n) U)
      (drop (Z.to_nat n) q) ∧
    cirque.cap cq' = cirque.cap cq.
Proof.
  intros HI. unfold cirque.Dequeue. case_decide as Hn.
  - exists cq. replace (Z.to_nat n) with 0 by lia.
    rewrite !drop_0, !take_0, app_nil_r. done.
  - destruct (Dequeue_loop_Inv (Z.to_nat n) _ _ _ _ [] HI)
      as (cq' & Hloop & HI' & _ & _ & Hc).
    exists cq'. done.
Qed.
(** An iteration of the loop of [Enqueue] is its part up to the load of
    [len] followed by its part from the store on, with nothing in between. *)
Lemma Enqueue_item_split (b : Z) cq (item : T) :
  cirque.Enqueue_item b cq item
  = '(cq2, loaded) ← cirque.Enqueue_item_load b cq item;
    cirque.Enqueue_item_store cq2 loaded.
Proof.
  unfold cirque.Enqueue_item, cirque.Enqueue_item_load, cirque.Enqueue_item_store.
  destruct (cirque.full cq) as [f|]; simpl; [|done].
  destruct (if f then cirque.grow cq (cirque.cap cq + b) else Some cq)
    as [cq1|]; simpl; [|done].
  by destruct (cirque.write cq1 item).
Qed.
End cirque_steps.

(** ** The growing queue in sequential use *)

Section cirque_runs.
Context {T : Type}.
Implicit Types (cq : cirque.Cirque T) (U F : list nat) (q : list T).

(** Any sequence of calls runs to its end, and what was in the queue or
    was enqueued is, in order, what was dequeued followed by what is left. *)
Lemma run_Inv (ops : list (cirque.op T)) : ∀ cq U F q,
  cirque.Inv cq U F q →
  ∃ cq' outs U' F' q',
    cirque.run cq ops = Some (cq', outs) ∧
    cirque.Inv cq' U' F' q' ∧
    q ++ cirque.enqueued ops = concat outs ++ q'.
Proof.
  induction ops as [|[elements|n] ops IH]; intros cq U F q HI; simpl.
  - exists cq, [], U, F, q. by rewrite app_nil_r.
  - destruct (Enqueue_Inv _ _ _ _ elements HI) as (cq1 & U1 & F1 & HE & HI1 & _).
    rewrite HE. simpl.
    destruct (IH _ _ _ _ HI1) as (cq' & outs & U' & F' & q' & Hrun & HI' & Heq).
    exists cq', outs, U', F', q'. split_and!; [done|done|].
    rewrite <-Heq. unfold cirque.enqueued. simpl. by rewrite app_assoc.
  - destruct (Dequeue_Inv _ _ _ _ n HI) as (cq1 & HD & HI1 & _).
    rewrite HD. simpl.
    destruct (IH _ _ _ _ HI1) as (cq' & outs & U' & F' & q' & Hrun & HI' & Heq).
    rewrite Hrun. simpl.
    exists cq', (take (Z.to_nat n) q :: outs), U', F', q'.
    split_and!; [done|done|]. simpl. rewrite <-app_assoc, <-Heq.
    unfold cirque.enqueued. simpl.
    by rewrite app_assoc, take_drop.
Qed.



(** Every state the queue can be in satisfies the invariant. *)
Lemma reachable_Inv cq :
  cirque.reachable cq → ∃ U F q, cirque.Inv cq U F q.
Proof.
  induction 1 as [n cq HN|cq elements cq' _ (U & F & q & HI) HE
                 |cq n cq' out _ (U & F & q & HI) HD].
  - destruct (decide (n ≤ 0)%Z) as [Hn|Hn].
    { unfold cirque.New in HN. by rewrite decide_True in HN. }
    destruct (cirque_New_Inv (T:=T) n ltac:(lia)) as (cq0 & HN' & HI & _).
    simplify_eq. eauto.
  - destruct (Enqueue_Inv _ _ _ _ elements HI) as (cq1 & U1 & F1 & HE' & HI1 & _).
    simplify_eq. eauto.
  - destruct (Dequeue_Inv _ _ _ _ n HI) as (cq1 & HD' & HI1 & _).
    simplify_eq. eauto.
Qed.
End cirque_runs.

(** Following [Next] from the read head finds the unread slots and then the
    write head. *)
Lemma walk_queue_at {V : Type} (h : list (ring.Ring V)) (U : list nat) :
  ∀ (fuel r w : nat) (F : list nat),
    ring.queue_at h r w U F → length U ≤ fuel → ring.walk h fuel r w = Some U.
Proof.
  induction U as [|u U IH]; intros fuel r w F Hq Hfuel.
  - assert (r = w) as -> by (by eapply queue_at_empty).
    destruct fuel; simpl; by rewrite decide_True.
  - assert (r ≠ w) by (by rewrite (queue_at_empty _ _ _ _ _ Hq)).
    destruct (queue_at_move_read _ _ _ _ _ _ Hq) as (-> & HN & Hq').
    destruct fuel as [|fuel]; simpl in *; [lia|].
    rewrite decide_False by done. rewrite HN. simpl.
    rewrite (IH fuel _ _ _ Hq') by lia. done.
Qed.

(** ** The blocking queue: every operation keeps the invariant *)

Section ringbuffer_steps.
Context {T : Type}.
Implicit Types (rb : ringbuffer.RingBuffer T) (U F : list nat) (q items : list T).

Lemma ringbuffer_New_Inv (n : Z) :
  (0 < n)%Z →
  ∃ rb, ringbuffer.New T n = Some rb ∧
    ringbuffer.Inv rb [] (seq 1 (Z.to_nat n - 1)) [] ∧
    ringbuffer.readHead rb = ringbuffer.writeHead rb ∧
    ringbuffer.wr rb = ringbuffer.Idle ∧
    length (ringbuffer.mem rb) = Z.to_nat n.
Proof.
  intros Hn. unfold ringbuffer.New. rewrite decide_False by lia.
  destruct (New_spec (V:=option T) [] (Z.to_nat n) ltac:(lia))
    as (h' & HNew & Hlen & _ & _ & Hring).
  rewrite Z2Nat.id in HNew by lia. rewrite HNew. simpl.
  eexists. split; [done|]. simpl in *.
  destruct (Z.to_nat n) as [|k] eqn:Hk; [lia|].
  simpl in Hring. replace (S k - 1) with k by lia.
  split_and!; simpl; done.
Qed.

Lemma rb_Inv_lengths rb U F q : ringbuffer.Inv rb U F q → length q = length U.
Proof.
  intros (_ & Hv). apply (f_equal length) in Hv.
  by rewrite !length_fmap in Hv.
Qed.

Lemma rb_Inv_full rb U F q :
  ringbuffer.Inv rb U F q → ringbuffer.full rb = Some (bool_decide (F = [])).
Proof.
  intros (Hq & _).
  unfold ringbuffer.full, ringbuffer.getWriterHead, ringbuffer.getReaderHead.
  rewrite (queue_at_Next_write _ _ _ _ _ Hq). simpl. f_equal.
  apply bool_decide_ext. by eapply queue_at_full.
Qed.

(** [write] boxes the item into the slot under the write head and touches
    nothing else. *)
Lemma rb_write_mem rb item :
  ringbuffer.writeHead rb < length (ringbuffer.mem rb) →
  ∃ m, ringbuffer.write rb item = Some (ringbuffer.set_mem rb m) ∧
    length m = length (ringbuffer.mem rb) ∧
    (∀ x, ring.Next m x = ring.Next (ringbuffer.mem rb) x) ∧
    (∀ x, ring.Prev m x = ring.Prev (ringbuffer.mem rb) x) ∧
    (∀ x, ring.get_Value m x =
          if decide (x = ringbuffer.writeHead rb) then Some (Some (Some item))
          else ring.get_Value (ringbuffer.mem rb) x).
Proof.
  intros Hw. unfold ringbuffer.write, ringbuffer.getWriterHead.
  set (w := ringbuffer.writeHead rb) in *. set (h := ringbuffer.mem rb) in *.
  destruct (ring.get_Value h w) as [v|] eqn:Hv.
  2:{ unfold ring.get_Value in Hv. apply lookup_lt_is_Some_2 in Hw as [nd Hnd].
      by rewrite Hnd in Hv. }
  simpl.
  assert (∃ m1 bx, (if v is None then ring.set_Value h w (Some None) else Some h)
                   = Some m1 ∧ length m1 = length h ∧
            (∀ x, ring.Next m1 x = ring.Next h x) ∧
            (∀ x, ring.Prev m1 x = ring.Prev h x) ∧
            ring.get_Value m1 w = Some (Some bx) ∧
            (∀ x, x ≠ w → ring.get_Value m1 x = ring.get_Value h x))
    as (m1 & bx & -> & Hl1 & HN1 & HP1 & Hw1 & HV1).
  { destruct v as [bx|].
    - exists h, bx. done.
    - destruct (set_Value_is_Some h w (Some None) Hw) as [m1 Hm1].
      destruct (set_Value_spec _ _ _ _ Hm1) as (Hl & HV & HN & HP).
      exists m1, None. split_and!; try done.
      + rewrite HV. by rewrite decide_True.
      + intros x Hx. rewrite HV. by rewrite decide_False. }
  simpl. rewrite Hw1. simpl.
  destruct (set_Value_is_Some m1 w (Some (Some item)) ltac:(lia)) as [m2 Hm2].
  destruct (set_Value_spec _ _ _ _ Hm2) as (Hl & HV & HN & HP).
  rewrite Hm2. simpl. exists m2. split_and!; try done.
  - lia.
  - intros x. by rewrite HN.
  - intros x. by rewrite HP.
  - intros x. rewrite HV. case_decide; [done|]. by apply HV1.
Qed.

(** The rest of an iteration of [WriteOrWait]: the item lands in the slot
    under the write head and the write head moves on, whether or not a
    free slot follows. *)
Lemma rb_write_and_move rb U F q item :
  ringbuffer.Inv rb U F q →
  ∃ rb', ringbuffer.write_and_move rb item = Some rb' ∧
    ring.queue_at (ringbuffer.mem rb') (ringbuffer.readHead rb)
      (ringbuffer.writeHead rb) U F ∧
    ring.get_Value (ringbuffer.mem rb') <$> (U ++ [ringbuffer.writeHead rb])
      = (λ v, Some (Some (Some v))) <$> (q ++ [item]) ∧
    ringbuffer.writeHead rb' = hd (ringbuffer.readHead rb) F ∧
    ringbuffer.readHead rb' = ringbuffer.readHead rb ∧
    ringbuffer.wr rb' = ringbuffer.wr rb ∧
    length (ringbuffer.mem rb') = length (ringbuffer.mem rb).
Proof.
  intros (Hq & Hv).
  assert (Hw : ringbuffer.writeHead rb < length (ringbuffer.mem rb)).
  { eapply queue_at_allocated; [exact Hq|]. set_solver. }
  destruct (rb_write_mem rb item Hw) as (m & Hwr & Hl & HN & HP & HV).
  assert (Hq' : ring.queue_at m (ringbuffer.readHead rb) (ringbuffer.writeHead rb) U F)
    by (by eapply queue_at_frame).
  unfold ringbuffer.write_and_move. rewrite Hwr. simpl.
  unfold ringbuffer.moveWriterHeadForward. simpl.
  rewrite (queue_at_Next_write _ _ _ _ _ Hq'). simpl.
  eexists. split; [done|]. simpl. split_and!; try done.
  rewrite !fmap_app. simpl. f_equal.
  - rewrite <-Hv. apply Forall_fmap_ext, Forall_forall. intros a Ha.
    rewrite HV. rewrite decide_False; [done|]. intros ->.
    destruct Hq as [[Hnd _] _]. apply NoDup_app in Hnd as (_ & Hd & _).
    apply (Hd _ Ha). set_solver.
  - rewrite HV. by rewrite decide_True.
Qed.

Lemma rb_write_and_move_Inv rb U f F q item :
  ringbuffer.Inv rb U (f :: F) q →
  ∃ rb', ringbuffer.write_and_move rb item = Some rb' ∧
    ringbuffer.Inv rb' (U ++ [ringbuffer.writeHead rb]) F (q ++ [item]) ∧
    ringbuffer.writeHead rb' = f ∧
    ringbuffer.readHead rb' = ringbuffer.readHead rb ∧
    ringbuffer.wr rb' = ringbuffer.wr rb ∧
    length (ringbuffer.mem rb') = length (ringbuffer.mem rb).
Proof.
  intros HI.
  destruct (rb_write_and_move _ _ _ _ item HI)
    as (rb' & Hwm & Hq' & Hv' & Hw' & Hr' & Hwr' & Hl').
  exists rb'. split_and!; try done. split; [|done].
  rewrite Hw', Hr'. simpl. by apply queue_at_move_write.
Qed.

(** The loop of [WriteOrWait]: it writes as many items as there are free
    slots, in order, and parks with the others if some are left. *)
Lemma WriteOrWait_loop_Inv items : ∀ rb U F q,
  ringbuffer.Inv rb U F q →
  ∃ rb' U',
    ringbuffer.WriteOrWait_loop rb items = Some rb' ∧
    ringbuffer.Inv rb' U' (drop (length items) F) (q ++ take (length F) items) ∧
    U' ++ ringbuffer.writeHead rb' :: drop (length items) F
      = U ++ ringbuffer.writeHead rb :: F ∧
    ringbuffer.wr rb' =
      (if decide (length items ≤ length F) then ringbuffer.Idle
       else ringbuffer.Parked (drop (length F) items)) ∧
    ringbuffer.readHead rb' = ringbuffer.readHead rb ∧
    length (ringbuffer.mem rb') = length (ringbuffer.mem rb).
Proof.
  induction items as [|item rest IH]; intros rb U F q HI; simpl.
  - exists (ringbuffer.set_wr rb ringbuffer.Idle), U.
    rewrite drop_0, take_nil, app_nil_r.
    split_and!; try done; case_decide; done || lia.
  - rewrite (rb_Inv_full _ _ _ _ HI). simpl. destruct F as [|f F].
    + rewrite bool_decide_true by done.
      eexists _, U. split; [done|]. simpl. rewrite app_nil_r.
      split_and!; try done; case_decide; done || (simpl in *; lia).
    + rewrite bool_decide_false by done.
      destruct (rb_write_and_move_Inv _ _ _ _ _ item HI)
        as (rb1 & Hwm & HI1 & Hw1 & Hr1 & Hwr1 & Hl1).
      rewrite Hwm. simpl.
      destruct (IH _ _ _ _ HI1) as (rb' & U' & Hloop & HI' & HU' & Hwr' & Hr' & Hl').
      exists rb', U'. rewrite <-app_assoc in HI'. simpl in *.
      split_and!; try done; try congruence.
      * rewrite HU', Hw1, <-app_assoc. done.
      * rewrite Hwr'. repeat case_decide; try done; lia.
Qed.

Lemma notify_notify (w : ringbuffer.writer T) :
  ringbuffer.notify (ringbuffer.notify w) = ringbuffer.notify w.
Proof. by destruct w. Qed.

(** The loop of [Read]: it never fails, hands out the oldest items, and
    signals the writer if it moved the read head. *)
Lemma Read_loop_Inv (i : nat) : ∀ rb U F q result,
  ringbuffer.Inv rb U F q →
  ∃ rb',
    ringbuffer.Read_loop i rb result = Some (rb', result ++ take i q) ∧
    ringbuffer.Inv rb' (drop i U) (F ++ take i U) (drop i q) ∧
    ringbuffer.mem rb' = ringbuffer.mem rb ∧
    ringbuffer.writeHead rb' = ringbuffer.writeHead rb ∧
    ringbuffer.wr rb' =
      (if decide (take i U = []) then ringbuffer.wr rb
       else ringbuffer.notify (ringbuffer.wr rb)).
Proof.
  induction i as [|i IH]; intros rb U F q result HI; simpl.
  - exists rb. rewrite !drop_0, !app_nil_r. done.
  - pose proof HI as (Hq & Hv).
    unfold ringbuffer.getReaderHead, ringbuffer.getWriterHead.
    destruct U as [|u U].
    + destruct q as [|v q]; [|done].
      rewrite decide_True by (by eapply queue_at_empty).
      exists rb. simpl. rewrite !app_nil_r. done.
    + destruct q as [|v q]; [done|].
      rewrite decide_False by (by rewrite (queue_at_empty _ _ _ _ _ Hq)).
      destruct (queue_at_move_read _ _ _ _ _ _ Hq) as (Hru & HNu & Hq').
      simpl in Hv. injection Hv as Hvu Hv.
      unfold ringbuffer.read, ringbuffer.getReaderHead. rewrite Hru, Hvu. simpl.
      unfold ringbuffer.moveReaderHeadForward. simpl. rewrite Hru, HNu. simpl.
      set (rb1 := ringbuffer.set_wr
                    (ringbuffer.set_readHead rb (hd (ringbuffer.writeHead rb) U))
                    (ringbuffer.notify (ringbuffer.wr rb))).
      assert (HI1 : ringbuffer.Inv rb1 U (F ++ [u]) q) by done.
      destruct (IH rb1 U (F ++ [u]) q (result ++ [v]) HI1)
        as (rb' & Hloop & HI' & Hm & Hw & Hwr).
      rewrite Hloop. exists rb'. rewrite <-!app_assoc in *. simpl in *.
      split_and!; try done.
      rewrite Hwr. case_decide; [done|]. apply notify_notify.
Qed.

Lemma Read_Inv rb U F q (n : Z) :
  ringbuffer.Inv rb U F q →
  ∃ rb',
    ringbuffer.Read rb n = Some (rb', take (Z.to_nat n) q) ∧
    ringbuffer.Inv rb' (drop (Z.to_nat n) U) (F ++ take (Z.to_nat n) U)
      (drop (Z.to_nat n) q) ∧
    ringbuffer.mem rb' = ringbuffer.mem rb ∧
    ringbuffer.writeHead rb' = ringbuffer.writeHead rb ∧
    ringbuffer.wr rb' =
      (if decide (take (Z.to_nat n) U = []) then ringbuffer.wr rb
       else ringbuffer.notify (ringbuffer.wr rb)).
Proof.
  intros HI. unfold ringbuffer.Read. case_decide as Hn.
  - exists rb. replace (Z.to_nat n) with 0 by lia.
    rewrite !drop_0, !take_0, app_nil_r. done.
  - destruct (Read_loop_Inv (Z.to_nat n) _ _ _ _ [] HI)
      as (rb' & Hloop & HI' & Hm & Hw & Hwr).
    exists rb'. done.
Qed.

(** What holds in every state of a queue of [n] slots: the ring has [n]
    slots; a parked writer has no free slot; a woken writer has one. *)
Lemma rb_reachable_Inv (n : Z) rb :
  ringbuffer.reachable n rb →
  ∃ U F q, ringbuffer.Inv rb U F q ∧
    Z.of_nat (length (U ++ ringbuffer.writeHead rb :: F)) = n ∧
    length (ringbuffer.mem rb) = Z.to_nat n ∧
    match ringbuffer.wr rb with
    | ringbuffer.Idle => True
    | ringbuffer.Parked _ => F = []
    | ringbuffer.Woken _ => F ≠ []
    end.
Proof.
  induction 1 as [rb HN
                 |rb items rb' _ (U & F & q & HI & Hn & Hm & Hwr) Hidle HW
                 |rb m rb' out _ (U & F & q & HI & Hn & Hm & Hwr) HR
                 |rb rb' _ (U & F & q & HI & Hn & Hm & Hwr) HR].
  - destruct (decide (n ≤ 0)%Z) as [Hn|Hn].
    { unfold ringbuffer.New in HN. by rewrite decide_True in HN. }
    destruct (ringbuffer_New_Inv n ltac:(lia)) as (rb0 & HN' & HI & _ & Hidle & Hl).
    simplify_eq. exists [], (seq 1 (Z.to_nat n - 1)), [].
    rewrite Hidle. split_and!; try done. simpl. rewrite length_seq. lia.
  - destruct (WriteOrWait_loop_Inv items _ _ _ _ HI)
      as (rb1 & U' & HW' & HI' & HU' & Hwr' & _ & Hl').
    unfold ringbuffer.WriteOrWait in HW. simplify_eq.
    eexists _, _, _. split; [exact HI'|]. split_and!.
    + by rewrite HU'.
    + lia.
    + rewrite Hwr'. case_decide; [done|]. apply drop_ge. lia.
  - destruct (Read_Inv _ _ _ _ m HI) as (rb1 & HR' & HI' & Hm' & Hw' & Hwr').
    simplify_eq. eexists _, _, _. split; [exact HI'|]. split_and!.
    + rewrite Hw'. rewrite !length_app. simpl.
      rewrite length_app, length_drop, length_take. lia.
    + by rewrite Hm'.
    + rewrite Hwr'. destruct (ringbuffer.wr rb) as [|items|items]; simpl.
      * by case_decide.
      * subst F. by case_decide.
      * case_decide; by destruct F.
  - unfold ringbuffer.resume in HR.
    destruct (ringbuffer.wr rb) as [|items|[|item rest]] eqn:Hw;
      try (injection HR as <-; exists U, F, q; rewrite Hw; done).
    destruct F as [|f F]; [done|].
    destruct (rb_write_and_move_Inv _ _ _ _ _ item HI)
      as (rb1 & Hwm & HI1 & Hw1 & Hr1 & Hwr1 & Hl1).
    rewrite Hwm in HR. simpl in HR.
    destruct (WriteOrWait_loop_Inv rest _ _ _ _ HI1)
      as (rb2 & U' & HW' & HI' & HU' & Hwr' & _ & Hl').
    simplify_eq. eexists _, _, _. split; [exact HI'|]. split_and!.
    + rewrite HU', <-app_assoc. done.
    + lia.
    + rewrite Hwr'. case_decide; [done|]. apply drop_ge. lia.
Qed.
(** [moveReaderHeadForward] is the store of the read head followed by the
    [select], and an iteration of the loop of [Read] is its part up to the
    [select] followed by its part from the [select] on, with nothing in
    between. *)
Lemma moveReaderHeadForward_split rb :
  ringbuffer.moveReaderHeadForward rb
  = rb1 ← ringbuffer.storeReaderHead rb; Some (ringbuffer.trySend rb1).
Proof.
  unfold ringbuffer.moveReaderHeadForward, ringbuffer.storeReaderHead.
  by destruct (ring.Next (ringbuffer.mem rb) (ringbuffer.readHead rb)).
Qed.

Lemma Read_loop_split (i : nat) rb (result : list T) :
  ringbuffer.getReaderHead rb ≠ ringbuffer.getWriterHead rb →
  ringbuffer.Read_loop (S i) rb result
  = '(rb1, result1) ← ringbuffer.Read_iter_to_send rb result;
    ringbuffer.Read_from_send i rb1 result1.
Proof.
  intros Hne. simpl. rewrite decide_False by done.
  unfold ringbuffer.Read_iter_to_send, ringbuffer.Read_from_send.
  rewrite moveReaderHeadForward_split.
  destruct (ringbuffer.read rb) as [v|]; simpl; [|done].
  by destruct (ringbuffer.storeReaderHead rb).
Qed.

(** A writer that finds the ring full parks. *)
Lemma WriteOrWait_loop_park rb (item : T) (rest : list T) :
  ringbuffer.full rb = Some true →
  ringbuffer.WriteOrWait_loop rb (item :: rest)
  = Some (ringbuffer.park rb (item :: rest)).
Proof. intros Hf. simpl. by rewrite Hf. Qed.
End ringbuffer_steps.

(** ** Reading an empty queue *)

Lemma Dequeue_at_empty {T : Type} (cq : cirque.Cirque T) (n : Z) :
  cirque.readHead cq = cirque.writeHead cq → cirque.Dequeue cq n = Some (cq, []).
Proof.
  intros He. unfold cirque.Dequeue. case_decide; [done|].
  destruct (Z.to_nat n); simpl; [done|].
  unfold cirque.getReaderHead, cirque.getWriterHead. by rewrite decide_True.
Qed.

Lemma Read_at_empty {T : Type} (rb : ringbuffer.RingBuffer T) (n : Z) :
  ringbuffer.readHead rb = ringbuffer.writeHead rb →
  ringbuffer.Read rb n = Some (rb, []).
Proof.
  intros He. unfold ringbuffer.Read. case_decide; [done|].
  destruct (Z.to_nat n); simpl; [done|].
  unfold ringbuffer.getReaderHead, ringbuffer.getWriterHead. by rewrite decide_True.
Qed.


(** * The claims *)

(** Concrete instances of the invariants are settled by evaluation. *)
Ltac concrete_Inv :=
  cbv [cirque.Inv ringbuffer.Inv ring.queue_at ring.is_ring]; simpl;
  repeat match goal with
         | |- _ ∧ _ => split
         | |- NoDup _ => compute_done
         | |- ring.link _ _ _ => split; reflexivity
         | |- _ = _ => reflexivity
         | |- True => exact I
         end.



(** C2 as stated fails: in a blocking queue of capacity 4 with no reader it
    is not the case that four items are written without waiting and only a
    fifth waits: the write of the fourth item already takes the wait. *)
Lemma C2_counterexample :
  ¬ ∃ rb0 rb4 rb5,
      ringbuffer.New Z 4 = Some rb0 ∧
      ringbuffer.WriteOrWait rb0 [10; 20; 30; 40]%Z = Some rb4 ∧
      ringbuffer.wr rb4 = ringbuffer.Idle ∧
      ringbuffer.WriteOrWait rb4 [50%Z] = Some rb5 ∧
      ringbuffer.wr rb5 = ringbuffer.Parked [50%Z].
Proof.
  intros (rb0 & rb4 & rb5 & HN & HW & Hidle & _).
  vm_compute in HN. injection HN as <-.
  vm_compute in HW. injection HW as <-.
  discriminate Hidle.
Qed.

(** C2 (amended): in a blocking queue of capacity 4 with no reader,
    [WriteOrWait] completes for the first 3 items without reaching the wait
    and the write of the 4th item waits.  Called on the new queue with any
    items, it stores the first three (a [Read] finds exactly them) and
    returns if there are no more, and otherwise parks with the others still
    to write; called item by item, the writer is back to [Idle] after each
    of the first three calls, the ring is then full, and the fourth call
    parks with its item, leaving the ring and the heads as they were. *)
Theorem C2_capacity_4_blocks_at_4th (T : Type) :
  ∃ rb0,
    ringbuffer.New T 4 = Some rb0 ∧
    (∀ items : list T,
       ∃ rb' rb'',
         ringbuffer.WriteOrWait rb0 items = Some rb' ∧
         ringbuffer.wr rb' =
           (if decide (length items ≤ 3) then ringbuffer.Idle
            else ringbuffer.Parked (drop 3 items)) ∧
         ringbuffer.Read rb' 4 = Some (rb'', take 3 items)) ∧
    (∀ a b c d : T,
       ∃ rb1 rb2 rb3 rb4,
         ringbuffer.WriteOrWait rb0 [a] = Some rb1 ∧ ringbuffer.wr rb1 = ringbuffer.Idle ∧
         ringbuffer.WriteOrWait rb1 [b] = Some rb2 ∧ ringbuffer.wr rb2 = ringbuffer.Idle ∧
         ringbuffer.WriteOrWait rb2 [c] = Some rb3 ∧ ringbuffer.wr rb3 = ringbuffer.Idle ∧
         ringbuffer.full rb3 = Some true ∧
         ringbuffer.WriteOrWait rb3 [d] = Some rb4 ∧
         rb4 = ringbuffer.set_wr rb3 (ringbuffer.Parked [d])).
Proof.
  destruct (ringbuffer_New_Inv (T:=T) 4 ltac:(lia)) as (rb0 & HN & HI & _).
  exists rb0. split_and!; [done| |].
  - intros items.
    destruct (WriteOrWait_loop_Inv items _ _ _ _ HI)
      as (rb' & U' & HW & HI' & _ & Hwr & _).
    destruct (Read_Inv _ _ _ _ 4 HI') as (rb'' & HR & _).
    exists rb', rb''. split_and!; [done|done|].
    rewrite HR. simpl. f_equal. f_equal.
    rewrite take_ge; [done|]. rewrite length_take. lia.
  - intros a b c d. vm_compute in HN. injection HN as <-.
    eexists _, _, _, _. split_and!; reflexivity.
Qed.

(** C3: the claim fails on the code when the element type is an interface
    type.  In the queue [New[any](2)] after [Enqueue(nil)] the read head is
    one slot behind the write head, on a slot that was written, but with the
    nil item, which leaves its [Value] nil: although the heads differ, the
    value extraction of [read] panics, and with it [Dequeue(1)].  An item
    that is not nil comes back. *)
Theorem C3_nil_item_makes_read_panic :
  ∃ cq0 cq1 : cirque.Cirque Z,
    cirque.New Z 2 = Some cq0 ∧
    cirque.Enqueue_iface cq0 [None] = Some cq1 ∧
    cirque.Len cq1 = 1%Z ∧
    cirque.readHead cq1 ≠ cirque.writeHead cq1 ∧
    ring.walk (cirque.mem cq1) 1 (cirque.readHead cq1) (cirque.writeHead cq1)
      = Some [cirque.readHead cq1] ∧
    ring.get_Value (cirque.mem cq1) (cirque.readHead cq1) = Some None ∧
    cirque.read_iface cq1 = None ∧
    cirque.Dequeue_iface cq1 1 = None ∧
    ∃ cq2 cq3,
      cirque.Enqueue_iface cq0 [Some 7%Z] = Some cq2 ∧
      cirque.Dequeue_iface cq2 1 = Some (cq3, [Some 7%Z]).
Proof.
  eexists _, _. split; [reflexivity|]. split; [reflexivity|].
  split_and!; try reflexivity.
  - simpl. lia.
  - eexists _, _. split; reflexivity.
Qed.

(** C4: the claim fails on the code when a [Dequeue] runs while an
    [Enqueue] is between its load and its store of [cq.len].  On a new queue
    of 4 slots holding the item 10, the writer enqueues 20: it writes the
    item and loads [len], which is 1.  A [Dequeue(1)] now returns 10 and
    sets [len] to 0.  The writer stores 1 + 1 and moves on.  Two items were
    enqueued and one dequeued, but [Len] is 2; and when the one item left has
    been dequeued, [Len] is 1 on an empty queue.  No item is lost. *)
Theorem C4_len_update_is_lost :
  ∃ cq0 cq1 cq2 loaded cq3 cq4 cq5,
    cirque.New Z 4 = Some cq0 ∧
    cirque.Enqueue cq0 [10%Z] = Some cq1 ∧
    cirque.Enqueue_item_load 1 cq1 20%Z = Some (cq2, loaded) ∧
    cirque.Dequeue cq2 1 = Some (cq3, [10%Z]) ∧
    cirque.Enqueue_item_store cq3 loaded = Some cq4 ∧
    cirque.Len cq4 = 2%Z ∧
    cirque.Dequeue cq4 4 = Some (cq5, [20%Z]) ∧
    cirque.readHead cq5 = cirque.writeHead cq5 ∧
    cirque.Len cq5 = 1%Z ∧
    ∀ n, cirque.Dequeue cq5 n = Some (cq5, []).
Proof.
  eexists _, _, _, _, _, _, _.
  split; [reflexivity|]. split; [reflexivity|]. split; [reflexivity|].
  split; [reflexivity|]. split; [reflexivity|]. split; [reflexivity|].
  split; [reflexivity|]. split; [reflexivity|]. split; [reflexivity|].
  intros n. by apply Dequeue_at_empty.
Qed.

(** C5: a growth by a positive amount [k] links [k] new, empty slots into
    the ring immediately after the slot under the write head and nowhere
    else: if the ring was, from the read head on, the unread slots [U], the
    write-head slot and the free slots [F], it is afterwards [U], the
    write-head slot, the [k] new slots, [F].  The new slots are slots that
    did not exist before; [cap] grows by exactly [k]; every slot that
    existed keeps its address, its [Value] and its place relative to the
    others; the two heads and [len] are unchanged; and the items in the
    queue are the same. *)
Theorem C5_grow_splices_after_write_head
    (T : Type) (cq : cirque.Cirque T) (U F : list nat) (q : list T) (k : Z) :
  (0 < k)%Z → cirque.Inv cq U F q →
  ∃ cq',
    cirque.grow cq k = Some cq' ∧
    ring.is_ring (cirque.mem cq')
      (U ++ cirque.writeHead cq :: seq (length (cirque.mem cq)) (Z.to_nat k) ++ F) ∧
    (∀ a, a ∈ seq (length (cirque.mem cq)) (Z.to_nat k) →
       ring.get_Value (cirque.mem cq') a = Some None) ∧
    length (cirque.mem cq') = length (cirque.mem cq) + Z.to_nat k ∧
    (∀ a, a < length (cirque.mem cq) →
       ring.get_Value (cirque.mem cq') a = ring.get_Value (cirque.mem cq) a) ∧
    cirque.cap cq' = (cirque.cap cq + k)%Z ∧
    cirque.len cq' = cirque.len cq ∧
    cirque.readHead cq' = cirque.readHead cq ∧
    cirque.writeHead cq' = cirque.writeHead cq ∧
    cirque.Inv cq' U (seq (length (cirque.mem cq)) (Z.to_nat k) ++ F) q.
Proof.
  intros Hk HI.
  destruct (grow_Inv _ _ _ _ k Hk HI)
    as (cq' & Hg & HI' & Hc & Hl & Hr & Hw & Hm & Hold & Hnew).
  exists cq'. split_and!; try done.
  destruct HI' as ([Hring _] & _). by rewrite Hw in Hring.
Qed.

Lemma C5_grow_splices_after_write_head_witness :
  ∃ cq',
    cirque.grow cirque_example 3 = Some cq' ∧
    ring.is_ring (cirque.mem cq') [0; 1; 2; 3; 4] ∧
    (∀ a, a ∈ [2; 3; 4] → ring.get_Value (cirque.mem cq') a = Some None) ∧
    length (cirque.mem cq') = 5 ∧
    (∀ a, a < 2 →
       ring.get_Value (cirque.mem cq') a
       = ring.get_Value (cirque.mem cirque_example) a) ∧
    cirque.cap cq' = 5%Z ∧
    cirque.len cq' = 1%Z ∧
    cirque.readHead cq' = 0 ∧
    cirque.writeHead cq' = 1 ∧
    cirque.Inv cq' [0] [2; 3; 4] [7%Z].
Proof.
  apply (C5_grow_splices_after_write_head Z cirque_example [0] [] [7%Z] 3%Z).
  - lia.
  - concrete_Inv.
Defined.

(** C6: the code does not do what the claim says, and a signal that comes
    late makes it lose items.  In a queue of 2 slots the writer has written
    10, so the ring is full.  A [Read(1)] reads 10 and stores the new read
    head; its [select] is still to come.  The writer is called with 20 and
    30: it finds a free slot, writes 20, finds the ring full again and waits
    for 30.  Now the reader's [select] finds the writer waiting and sends:
    the writer is woken although no slot was freed since it began to wait.
    Testing again it would wait again; the code stores 30 and moves the write
    head onto the read head.  The queue now looks empty: 20 and 30 were
    written and are never read. *)
Theorem C6_stale_signal_overruns_the_reader :
  ∃ rb0 rb1 rb2 rb3 rb4 rb5 : ringbuffer.RingBuffer Z,
    ringbuffer.New Z 2 = Some rb0 ∧
    ringbuffer.WriteOrWait rb0 [10%Z] = Some rb1 ∧
    ringbuffer.wr rb1 = ringbuffer.Idle ∧
    ringbuffer.getReaderHead rb1 ≠ ringbuffer.getWriterHead rb1 ∧
    ringbuffer.Read_iter_to_send rb1 [] = Some (rb2, [10%Z]) ∧
    ringbuffer.WriteOrWait rb2 [20%Z; 30%Z] = Some rb3 ∧
    ringbuffer.wr rb3 = ringbuffer.Parked [30%Z] ∧
    ringbuffer.Read_from_send 0 rb3 [10%Z] = Some (rb4, [10%Z]) ∧
    ringbuffer.wr rb4 = ringbuffer.Woken [30%Z] ∧
    ringbuffer.full rb4 = Some true ∧
    ringbuffer.WriteOrWait_loop rb4 [30%Z] = Some (ringbuffer.park rb4 [30%Z]) ∧
    ringbuffer.resume rb4 = Some rb5 ∧
    ringbuffer.wr rb5 = ringbuffer.Idle ∧
    ringbuffer.readHead rb5 = ringbuffer.writeHead rb5 ∧
    ∀ m, ringbuffer.Read rb5 m = Some (rb5, []).
Proof.
  eexists _, _, _, _, _, _.
  split; [reflexivity|]. split; [reflexivity|]. split; [reflexivity|].
  split; [simpl; lia|].
  split; [reflexivity|]. split; [reflexivity|]. split; [reflexivity|].
  split; [reflexivity|]. split; [reflexivity|]. split; [reflexivity|].
  split; [reflexivity|]. split; [reflexivity|]. split; [reflexivity|].
  split; [reflexivity|].
  intros m. by apply Read_at_empty.
Qed.

(** C7: [Read] on the blocking queue and [Dequeue] on the growing queue,
    called with a positive count while the read head equals the write head,
    return a result of length zero, without blocking or failing, and leave
    the whole state as it was. *)
Theorem C7_read_of_empty_queue :
  (∀ (T : Type) (cq : cirque.Cirque T) (n : Z),
      (0 < n)%Z → cirque.readHead cq = cirque.writeHead cq →
      cirque.Dequeue cq n = Some (cq, [])) ∧
  (∀ (T : Type) (rb : ringbuffer.RingBuffer T) (n : Z),
      (0 < n)%Z → ringbuffer.readHead rb = ringbuffer.writeHead rb →
      ringbuffer.Read rb n = Some (rb, [])).
Proof.
  split; intros T s n _ He; [by apply Dequeue_at_empty|by apply Read_at_empty].
Qed.

Lemma C7_read_of_empty_queue_witness :
  cirque.Dequeue (cirque.mkCirque [ring.mkRing 0 0 (None : option Z)] 0 0 0 1) 5
  = Some (cirque.mkCirque [ring.mkRing 0 0 None] 0 0 0 1, []) ∧
  ringbuffer.Read
    (ringbuffer.mkRingBuffer [ring.mkRing 0 0 (None : option (option Z))] 0 0
       ringbuffer.Idle) 5
  = Some (ringbuffer.mkRingBuffer [ring.mkRing 0 0 None] 0 0 ringbuffer.Idle, []).
Proof.
  split.
  - apply (proj1 C7_read_of_empty_queue Z); [lia|reflexivity].
  - apply (proj2 C7_read_of_empty_queue Z); [lia|reflexivity].
Defined.

(** C8: in both variants [New] with a capacity that is not positive fails:
    it returns nil and creates no queue; with a positive capacity [n] it
    succeeds and yields an empty queue whose read head and write head are
    the same slot of a ring of [n] slots. *)
Theorem C8_construction :
  (∀ (T : Type) (n : Z),
      (n ≤ 0)%Z → cirque.New T n = None ∧ ringbuffer.New T n = None) ∧
  (∀ (T : Type) (n : Z),
      (0 < n)%Z →
      (∃ cq others,
          cirque.New T n = Some cq ∧
          cirque.readHead cq = cirque.writeHead cq ∧
          ring.is_ring (cirque.mem cq) (cirque.readHead cq :: others) ∧
          Z.of_nat (length (cirque.readHead cq :: others)) = n ∧
          cirque.Len cq = 0%Z ∧ cirque.cap cq = n ∧
          ∀ m, cirque.Dequeue cq m = Some (cq, [])) ∧
      (∃ rb others,
          ringbuffer.New T n = Some rb ∧
          ringbuffer.readHead rb = ringbuffer.writeHead rb ∧
          ring.is_ring (ringbuffer.mem rb) (ringbuffer.readHead rb :: others) ∧
          Z.of_nat (length (ringbuffer.readHead rb :: others)) = n ∧
          ringbuffer.wr rb = ringbuffer.Idle ∧
          ∀ m, ringbuffer.Read rb m = Some (rb, []))).
Proof.
  split.
  - intros T n Hn. unfold cirque.New, ringbuffer.New.
    by rewrite !decide_True.
  - intros T n Hn. split.
    + destruct (cirque_New_Inv (T:=T) n Hn)
        as (cq & HN & ((Hring & _) & _) & He & Hc & Hl & _).
      exists cq, (seq 1 (Z.to_nat n - 1)). rewrite He. simpl in Hring.
      split_and!; try done.
      * simpl. rewrite length_seq. lia.
      * intros m. by apply Dequeue_at_empty.
    + destruct (ringbuffer_New_Inv (T:=T) n Hn)
        as (rb & HN & ((Hring & _) & _) & He & Hi & _).
      exists rb, (seq 1 (Z.to_nat n - 1)). rewrite He. simpl in Hring.
      split_and!; try done.
      * simpl. rewrite length_seq. lia.
      * intros m. by apply Read_at_empty.
Qed.

Lemma C8_construction_witness :
  (cirque.New Z (-1) = None ∧ ringbuffer.New Z (-1) = None) ∧
  (∃ cq others,
      cirque.New Z 3 = Some cq ∧
      cirque.readHead cq = cirque.writeHead cq ∧
      ring.is_ring (cirque.mem cq) (cirque.readHead cq :: others) ∧
      Z.of_nat (length (cirque.readHead cq :: others)) = 3%Z ∧
      cirque.Len cq = 0%Z ∧ cirque.cap cq = 3%Z ∧
      ∀ m, cirque.Dequeue cq m = Some (cq, [])).
Proof.
  split.
  - apply (proj1 C8_construction Z (-1)%Z). lia.
  - apply (proj2 C8_construction Z 3%Z). lia.
Defined.

(** C9: invalid arguments are no-ops and raise nothing: [Dequeue] and
    [Read] with a count that is not positive return the empty result and
    leave the state as it was, and a growth by an amount that is not
    positive leaves the ring, both heads, [cap] and [len] as they were (a
    negative amount is refused at once; for the amount zero the write head
    only has to point at an allocated slot, as it always does). *)
Theorem C9_invalid_arguments_are_no_ops :
  (∀ (T : Type) (cq : cirque.Cirque T) (n : Z),
      (n ≤ 0)%Z → cirque.Dequeue cq n = Some (cq, [])) ∧
  (∀ (T : Type) (rb : ringbuffer.RingBuffer T) (n : Z),
      (n ≤ 0)%Z → ringbuffer.Read rb n = Some (rb, [])) ∧
  (∀ (T : Type) (cq : cirque.Cirque T) (min : Z),
      (min < 0)%Z → cirque.grow cq min = Some cq) ∧
  (∀ (T : Type) (cq : cirque.Cirque T),
      cirque.writeHead cq < length (cirque.mem cq) → cirque.grow cq 0 = Some cq).
Proof.
  split_and!.
  - intros T cq n Hn. unfold cirque.Dequeue. by rewrite decide_True.
  - intros T rb n Hn. unfold ringbuffer.Read. by rewrite decide_True.
  - intros T cq min Hm. unfold cirque.grow. by rewrite decide_True.
  - intros T cq Hw. unfold cirque.grow. rewrite decide_False by lia.
    rewrite New_nil by lia.
    apply Next_is_Some in Hw as [n Hn]. rewrite (Link_nil _ _ _ Hn). simpl.
    destruct cq. unfold cirque.set_cap, cirque.set_mem. simpl.
    by rewrite Z.add_0_r.
Qed.

Lemma C9_invalid_arguments_are_no_ops_witness :
  cirque.Dequeue cirque_example (-3) = Some (cirque_example, []) ∧
  cirque.grow cirque_example (-3) = Some cirque_example ∧
  cirque.grow cirque_example 0 = Some cirque_example.
Proof.
  split_and!.
  - apply (proj1 C9_invalid_arguments_are_no_ops Z). lia.
  - apply (proj1 (proj2 (proj2 C9_invalid_arguments_are_no_ops)) Z). lia.
  - apply (proj2 (proj2 (proj2 C9_invalid_arguments_are_no_ops)) Z). simpl. lia.
Defined.

(** C10: in both variants a ring of capacity [c] holds at most [c - 1]
    items, because the fullness test compares the slot after the write head
    with the read head.  In the growing queue, in every reachable state,
    [len <= cap - 1]; the test is true exactly when [len = cap - 1]; an
    iteration of [Enqueue] grows the ring exactly then, and the growth
    during a batch of [b] items takes [cap] from [c] to [2c + b]; a whole
    [Enqueue] of [b] items grows (once) exactly when [b] exceeds the
    [cap - 1 - len] slots still free.  In the blocking queue of [n] slots, in
    every reachable state, the number of stored and unread items (the slots
    from the read head up to the write head) is at most [n - 1]; the test is
    true exactly when it is [n - 1]; and [WriteOrWait] of an item waits
    exactly then. *)
Theorem C10_full_one_slot_early :
  (∀ (T : Type) (cq : cirque.Cirque T),
      cirque.reachable cq →
      (cirque.Len cq ≤ cirque.cap cq - 1)%Z ∧
      cirque.full cq = Some (bool_decide (cirque.Len cq = cirque.cap cq - 1)%Z) ∧
      (∀ (b : Z) (item : T), (0 ≤ b)%Z →
         ∃ cq', cirque.Enqueue_item b cq item = Some cq' ∧
           cirque.cap cq' =
             if decide (cirque.Len cq = cirque.cap cq - 1)%Z
             then (2 * cirque.cap cq + b)%Z else cirque.cap cq) ∧
      (∀ elements : list T,
         ∃ cq', cirque.Enqueue cq elements = Some cq' ∧
           cirque.cap cq' =
             if decide (Z.of_nat (length elements) ≤ cirque.cap cq - 1 - cirque.Len cq)%Z
             then cirque.cap cq
             else (2 * cirque.cap cq + Z.of_nat (length elements))%Z)) ∧
  (∀ (T : Type) (n : Z) (rb : ringbuffer.RingBuffer T),
      ringbuffer.reachable n rb →
      ∃ stored : list nat,
        ring.walk (ringbuffer.mem rb) (Z.to_nat n)
          (ringbuffer.readHead rb) (ringbuffer.writeHead rb) = Some stored ∧
        (Z.of_nat (length stored) ≤ n - 1)%Z ∧
        ringbuffer.full rb = Some (bool_decide (Z.of_nat (length stored) = n - 1)%Z) ∧
        (∀ item : T,
           ∃ rb', ringbuffer.WriteOrWait rb [item] = Some rb' ∧
             ringbuffer.wr rb' =
               if decide (Z.of_nat (length stored) = n - 1)%Z
               then ringbuffer.Parked [item] else ringbuffer.Idle)).
Proof.
  split.
  - intros T cq Hreach. destruct (reachable_Inv _ Hreach) as (U & F & q & HI).
    pose proof HI as (Hq & Hv & Hlen & Hcap).
    rewrite length_app in Hcap. simpl in Hcap. unfold cirque.Len.
    assert (HF : F = [] ↔ (cirque.len cq = cirque.cap cq - 1)%Z).
    { destruct F; simpl in *; split; intros; try done; lia. }
    split_and!.
    + lia.
    + rewrite (Inv_full _ _ _ _ HI). f_equal. by apply bool_decide_ext.
    + intros b item Hb.
      destruct (Enqueue_item_Inv b _ _ _ _ item Hb HI) as (cq' & F' & HE & _ & _ & Hc).
      exists cq'. split; [done|].
      destruct (decide (F = [])) as [HF'|HF']; destruct Hc as [Hc _];
        case_decide; naive_solver.
    + intros elements.
      destruct (Enqueue_Inv _ _ _ _ elements HI) as (cq' & U' & F' & HE & _ & Hc).
      exists cq'. split; [done|]. rewrite Hc. repeat case_decide; try done; lia.
  - intros T n rb Hreach.
    destruct (rb_reachable_Inv _ _ Hreach) as (U & F & q & HI & Hn & _).
    pose proof HI as (Hq & Hv).
    rewrite length_app in Hn. simpl in Hn.
    assert (HF : F = [] ↔ (Z.of_nat (length U) = n - 1)%Z).
    { destruct F; simpl in *; split; intros; try done; lia. }
    exists U. split_and!.
    + eapply walk_queue_at; [exact Hq|lia].
    + lia.
    + rewrite (rb_Inv_full _ _ _ _ HI). f_equal. by apply bool_decide_ext.
    + intros item.
      destruct (WriteOrWait_loop_Inv [item] _ _ _ _ HI) as (rb' & U' & HW & _ & _ & Hwr & _).
      exists rb'. split; [done|]. rewrite Hwr. simpl.
      destruct F as [|f F]; simpl.
      * by rewrite decide_True by (by apply HF).
      * by rewrite decide_False by (rewrite <-HF; done).
Qed.

Lemma C10_full_one_slot_early_witness :
  (cirque.Len cirque_example ≤ cirque.cap cirque_example - 1)%Z ∧
  cirque.full cirque_example
  = Some (bool_decide (cirque.Len cirque_example = cirque.cap cirque_example - 1)%Z) ∧
  (∀ (b : Z) (item : Z), (0 ≤ b)%Z →
     ∃ cq', cirque.Enqueue_item b cirque_example item = Some cq' ∧
       cirque.cap cq' =
         if decide (cirque.Len cirque_example = cirque.cap cirque_example - 1)%Z
         then (2 * cirque.cap cirque_example + b)%Z else cirque.cap cirque_example) ∧
  (∀ elements : list Z,
     ∃ cq', cirque.Enqueue cirque_example elements = Some cq' ∧
       cirque.cap cq' =
         if decide (Z.of_nat (length elements)
                    ≤ cirque.cap cirque_example - 1 - cirque.Len cirque_example)%Z
         then cirque.cap cirque_example
         else (2 * cirque.cap cirque_example + Z.of_nat (length elements))%Z).
Proof.
  apply (proj1 C10_full_one_slot_early Z cirque_example).
  eapply cirque.reach_Enqueue with (elements := [7%Z]);
    [eapply cirque.reach_New with (n := 2%Z); reflexivity|reflexivity].
Defined.

(* ===================================================================== *)
(** * Part III: further properties of the code *)
(* ===================================================================== *)

(** ** The blocking queue with its history *)

Section ringbuffer_history.
Context {T : Type}.
Implicit Types (rb : ringbuffer.RingBuffer T) (U F : list nat) (q items : list T).

(** What holds of a state and its history: nothing is lost, repeated or
    reordered; a writer that waits or was woken has an item to write; a
    parked writer has no free slot and a woken one has. *)
Lemma rb_trace_Inv (n : Z) rb given got :
  ringbuffer.trace n rb given got →
  ∃ U F q, ringbuffer.Inv rb U F q ∧
    Z.of_nat (length (U ++ ringbuffer.writeHead rb :: F)) = n ∧
    length (ringbuffer.mem rb) = Z.to_nat n ∧
    given = got ++ q ++ ringbuffer.pending (ringbuffer.wr rb) ∧
    match ringbuffer.wr rb with
    | ringbuffer.Idle => True
    | ringbuffer.Parked l => F = [] ∧ l ≠ []
    | ringbuffer.Woken l => F ≠ [] ∧ l ≠ []
    end.
Proof.
  induction 1 as [rb HN
                 |rb given got items rb' _ (U & F & q & HI & Hn & Hm & Heq & Hwr) Hidle HW
                 |rb given got m rb' out _ (U & F & q & HI & Hn & Hm & Heq & Hwr) HR
                 |rb given got rb' _ (U & F & q & HI & Hn & Hm & Heq & Hwr) HR].
  - destruct (decide (n ≤ 0)%Z) as [Hn|Hn].
    { unfold ringbuffer.New in HN. by rewrite decide_True in HN. }
    destruct (ringbuffer_New_Inv (T:=T) n ltac:(lia)) as (rb0 & HN' & HI & _ & Hidle & Hl).
    rewrite HN' in HN. injection HN as <-.
    exists [], (seq 1 (Z.to_nat n - 1)), [].
    rewrite Hidle. split_and!; try done. simpl. rewrite length_seq. lia.
  - destruct (WriteOrWait_loop_Inv items _ _ _ _ HI)
      as (rb1 & U' & HW' & HI' & HU' & Hwr' & _ & Hl').
    unfold ringbuffer.WriteOrWait in HW. rewrite HW' in HW. injection HW as <-.
    eexists _, _, _. split; [exact HI'|]. split_and!.
    + by rewrite HU'.
    + lia.
    + rewrite Heq, Hidle, Hwr'. simpl. rewrite app_nil_r.
      case_decide; simpl.
      * rewrite take_ge by lia. by rewrite app_nil_r, app_assoc.
      * by rewrite <-!app_assoc, take_drop.
    + rewrite Hwr'. case_decide; [done|]. split; [apply drop_ge; lia|].
      intros Hd. apply (f_equal length) in Hd. rewrite length_drop in Hd.
      simpl in Hd. lia.
  - destruct (Read_Inv _ _ _ _ m HI) as (rb1 & HR' & HI' & Hm' & Hw' & Hwr').
    rewrite HR' in HR. injection HR as <- <-.
    eexists _, _, _. split; [exact HI'|]. split_and!.
    + rewrite <-Hn, Hw'. rewrite !length_app. simpl.
      rewrite length_app, length_drop, length_take. lia.
    + by rewrite Hm'.
    + rewrite Heq. rewrite <-!app_assoc. f_equal.
      rewrite (app_assoc (take _ q)), take_drop. f_equal.
      rewrite Hwr'. case_decide; [done|]. by destruct (ringbuffer.wr rb).
    + rewrite Hwr'. destruct (ringbuffer.wr rb) as [|l|l]; simpl.
      * by case_decide.
      * destruct Hwr as [-> Hl]. by case_decide.
      * destruct Hwr as [HF Hl]. case_decide; split; try done; by destruct F.
  - unfold ringbuffer.resume in HR.
    destruct (ringbuffer.wr rb) as [|l|[|item rest]] eqn:Hw;
      try (injection HR as <-; exists U, F, q; rewrite Hw; done).
    destruct Hwr as [HF _]. destruct F as [|f F]; [done|].
    destruct (rb_write_and_move_Inv _ _ _ _ _ item HI)
      as (rb1 & Hwm & HI1 & Hw1 & Hr1 & Hwr1 & Hl1).
    rewrite Hwm in HR. simpl in HR.
    destruct (WriteOrWait_loop_Inv rest _ _ _ _ HI1)
      as (rb2 & U' & HW' & HI' & HU' & Hwr' & _ & Hl').
    rewrite HW' in HR. injection HR as <-.
    eexists _, _, _. split; [exact HI'|]. split_and!.
    + rewrite HU', Hw1, <-app_assoc. done.
    + lia.
    + rewrite Heq, Hwr'. simpl. rewrite <-!app_assoc. simpl. do 3 f_equal.
      case_decide; simpl.
      * rewrite take_ge by lia. by rewrite app_nil_r.
      * by rewrite take_drop.
    + rewrite Hwr'. case_decide; [done|]. split; [apply drop_ge; lia|].
      intros Hd. apply (f_equal length) in Hd. rewrite length_drop in Hd.
      simpl in Hd. lia.
Qed.

Lemma rb_reachable_trace (n : Z) rb :
  ringbuffer.reachable n rb → ∃ given got, ringbuffer.trace n rb given got.
Proof.
  induction 1 as [rb HN|rb items rb' _ (given & got & Ht) Hidle HW
                 |rb m rb' out _ (given & got & Ht) HR
                 |rb rb' _ (given & got & Ht) HR].
  - exists [], []. by constructor.
  - exists (given ++ items), got. by econstructor.
  - exists given, (got ++ out). by econstructor.
  - exists given, got. by econstructor.
Qed.

Lemma rb_trace_reachable (n : Z) rb given got :
  ringbuffer.trace n rb given got → ringbuffer.reachable n rb.
Proof. induction 1; by econstructor. Qed.

(** In a state of the queue, with the stored items [q]. *)
Lemma rb_reachable_full_Inv (n : Z) rb :
  ringbuffer.reachable n rb →
  ∃ U F q, ringbuffer.Inv rb U F q ∧
    Z.of_nat (length (U ++ ringbuffer.writeHead rb :: F)) = n ∧
    length (ringbuffer.mem rb) = Z.to_nat n ∧
    match ringbuffer.wr rb with
    | ringbuffer.Idle => True
    | ringbuffer.Parked l => F = [] ∧ l ≠ []
    | ringbuffer.Woken l => F ≠ [] ∧ l ≠ []
    end.
Proof.
  intros (given & got & Ht)%rb_reachable_trace.
  destruct (rb_trace_Inv _ _ _ _ Ht) as (U & F & q & HI & Hn & Hm & _ & Hwr).
  by exists U, F, q.
Qed.

(** A [Read] of [n] items empties a queue of [n] slots. *)
Lemma rb_Read_all (n : Z) rb U F q :
  ringbuffer.Inv rb U F q →
  Z.of_nat (length (U ++ ringbuffer.writeHead rb :: F)) = n →
  ∃ rb', ringbuffer.Read rb n = Some (rb', q).
Proof.
  intros HI Hn. destruct (Read_Inv _ _ _ _ n HI) as (rb' & HR & _).
  exists rb'. rewrite HR. rewrite take_ge; [done|].
  rewrite (rb_Inv_lengths _ _ _ _ HI). rewrite length_app in Hn. simpl in Hn. lia.
Qed.
End ringbuffer_history.

(** [Len] of a ring, counted from any of its nodes. *)
Lemma Len_is_ring {V : Type} (h : list (ring.Ring V)) (r : nat) (X : list nat) (fuel : nat) :
  ring.is_ring h (r :: X) → length X ≤ fuel →
  ring.Len h fuel r = Some (S (length X)).
Proof.
  intros Hr Hfuel. unfold ring.Len.
  rewrite (is_ring_Next_hd _ _ _ Hr). simpl.
  assert (Hq : ring.queue_at h (hd r X) r X []).
  { split; [by apply is_ring_rotate1 in Hr|done]. }
  by rewrite (walk_queue_at _ _ _ _ _ _ Hq Hfuel).
Qed.

Lemma Len_queue_at {V : Type} (h : list (ring.Ring V)) (r w : nat) (U F : list nat)
    (fuel : nat) :
  ring.queue_at h r w U F → length (U ++ F) ≤ fuel →
  ring.Len h fuel r = Some (length (U ++ w :: F)).
Proof.
  intros [Hr ->] Hfuel. rewrite length_app in Hfuel.
  destruct U as [|u U]; simpl in *.
  - by apply Len_is_ring.
  - rewrite (Len_is_ring h u (U ++ w :: F) fuel Hr); [done|].
    rewrite length_app. simpl. lia.
Qed.

Section ringbuffer_extras.
Context {T : Type}.
Implicit Types (rb : ringbuffer.RingBuffer T) (U F : list nat) (q items : list T).

Lemma Read_loop_acc (i : nat) : ∀ rb (result : list T),
  ringbuffer.Read_loop i rb result
  = '(rb', out) ← ringbuffer.Read_loop i rb []; Some (rb', result ++ out).
Proof.
  induction i as [|i IH]; intros rb result; simpl.
  - by rewrite app_nil_r.
  - case_decide; simpl; [by rewrite app_nil_r|].
    destruct (ringbuffer.read rb) as [v|]; simpl; [|done].
    destruct (ringbuffer.moveReaderHeadForward rb) as [rb1|]; simpl; [|done].
    rewrite (IH rb1 (result ++ [v])), (IH rb1 [v]).
    destruct (ringbuffer.Read_loop i rb1 []) as [[rb' out]|]; simpl; [|done].
    by rewrite <-app_assoc.
Qed.

Lemma Read_loop_add (i j : nat) : ∀ rb,
  ringbuffer.Read_loop (i + j) rb []
  = '(rb1, o1) ← ringbuffer.Read_loop i rb [];
    '(rb2, o2) ← ringbuffer.Read_loop j rb1 [];
    Some (rb2, o1 ++ o2).
Proof.
  induction i as [|i IH]; intros rb; simpl.
  - by destruct (ringbuffer.Read_loop j rb []) as [[rb2 o2]|].
  - case_decide as He; simpl.
    + destruct j; simpl; [done|]. by rewrite decide_True.
    + destruct (ringbuffer.read rb) as [v|]; simpl; [|done].
      destruct (ringbuffer.moveReaderHeadForward rb) as [rb1|]; simpl; [|done].
      rewrite (Read_loop_acc (i + j) rb1 [v]), (Read_loop_acc i rb1 [v]), IH.
      destruct (ringbuffer.Read_loop i rb1 []) as [[rb' o1]|]; simpl; [|done].
      by destruct (ringbuffer.Read_loop j rb' []) as [[rb'' o2]|].
Qed.
End ringbuffer_extras.

(** X1: in the blocking queue with an element type that is not an
    interface type, as long as the goroutines take their steps one call at a
    time (a [WriteOrWait] runs to its return or to its wait, a [Read] to its
    return, and a woken writer to its return or to its next wait, before
    anything else runs), nothing is lost, repeated or reordered: the items
    passed to [WriteOrWait] so far are exactly the items the [Read] calls
    returned, followed by the items a [Read] of the whole ring would return
    now, followed by the items the waiting writer has still to write. *)
Theorem X1_ringbuffer_fifo_when_calls_do_not_overlap
    (T : Type) (n : Z) (rb : ringbuffer.RingBuffer T) (given got : list T) :
  ringbuffer.trace n rb given got →
  ∃ rb' stored,
    ringbuffer.Read rb n = Some (rb', stored) ∧
    given = got ++ stored ++ ringbuffer.pending (ringbuffer.wr rb).
Proof.
  intros Ht. destruct (rb_trace_Inv _ _ _ _ Ht) as (U & F & q & HI & Hn & _ & Heq & _).
  destruct (rb_Read_all n _ _ _ _ HI Hn) as (rb' & HR).
  by exists rb', q.
Qed.

Lemma X1_ringbuffer_fifo_when_calls_do_not_overlap_witness :
  ∃ rb' stored,
    ringbuffer.Read ringbuffer_woken 4 = Some (rb', stored) ∧
    [10; 20; 30; 40]%Z
    = [10%Z] ++ stored ++ ringbuffer.pending (ringbuffer.wr ringbuffer_woken).
Proof.
  apply (X1_ringbuffer_fifo_when_calls_do_not_overlap Z 4%Z ringbuffer_woken
           [10; 20; 30; 40]%Z [10%Z]).
  eapply ringbuffer.trace_Read with (m := 1%Z) (got := []) (out := [10%Z]);
    [eapply ringbuffer.trace_WriteOrWait
       with (given := []) (newItems := [10; 20; 30; 40]%Z);
       [eapply ringbuffer.trace_New; reflexivity|reflexivity|reflexivity]
    |reflexivity].
Defined.

(** X2: in any state the blocking queue reaches through calls that do not
    overlap, and in which no [WriteOrWait] is under way, a call of
    [WriteOrWait] during which no [Read] runs, with items of a type that is
    not an interface type, does not panic; it stores, in order and behind
    the items already stored, as many of its items as there are free slots
    (the capacity less one less the items stored); it returns if that is all
    of them and otherwise waits with the others. *)
Theorem X2_WriteOrWait_fills_the_free_slots
    (T : Type) (n : Z) (rb : ringbuffer.RingBuffer T) :
  ringbuffer.reachable n rb → ringbuffer.wr rb = ringbuffer.Idle →
  ∃ rb0 old,
    ringbuffer.Read rb n = Some (rb0, old) ∧
    ∀ items : list T,
      ∃ rb' rb'',
        ringbuffer.WriteOrWait rb items = Some rb' ∧
        ringbuffer.wr rb' =
          (if decide (length items ≤ Z.to_nat n - 1 - length old)
           then ringbuffer.Idle
           else ringbuffer.Parked (drop (Z.to_nat n - 1 - length old) items)) ∧
        ringbuffer.Read rb' n
        = Some (rb'', old ++ take (Z.to_nat n - 1 - length old) items).
Proof.
  intros Hreach _.
  destruct (rb_reachable_full_Inv _ _ Hreach) as (U & F & q & HI & Hn & _).
  destruct (rb_Read_all n _ _ _ _ HI Hn) as (rb0 & HR).
  exists rb0, q. split; [done|]. intros items.
  destruct (WriteOrWait_loop_Inv items _ _ _ _ HI)
    as (rb' & U' & HW & HI' & HU' & Hwr & _).
  assert (Hn' : Z.of_nat (length (U' ++ ringbuffer.writeHead rb'
                                    :: drop (length items) F)) = n)
    by (by rewrite HU').
  destruct (rb_Read_all n _ _ _ _ HI' Hn') as (rb'' & HR').
  assert (HF : length F = Z.to_nat n - 1 - length q).
  { rewrite (rb_Inv_lengths _ _ _ _ HI). rewrite length_app in Hn. simpl in Hn. lia. }
  exists rb', rb''. rewrite <-HF. done.
Qed.

Lemma X2_WriteOrWait_fills_the_free_slots_witness :
  ∃ rb0 old,
    ringbuffer.Read (ringbuffer.mkRingBuffer
                       [ring.mkRing 1 1 None; ring.mkRing 0 0 None] 0 0
                       ringbuffer.Idle) 2 = Some (rb0, old) ∧
    ∀ items : list Z,
      ∃ rb' rb'',
        ringbuffer.WriteOrWait (ringbuffer.mkRingBuffer
                       [ring.mkRing 1 1 None; ring.mkRing 0 0 None] 0 0
                       ringbuffer.Idle) items = Some rb' ∧
        ringbuffer.wr rb' =
          (if decide (length items ≤ Z.to_nat 2 - 1 - length old)
           then ringbuffer.Idle
           else ringbuffer.Parked (drop (Z.to_nat 2 - 1 - length old) items)) ∧
        ringbuffer.Read rb' 2
        = Some (rb'', old ++ take (Z.to_nat 2 - 1 - length old) items).
Proof.
  apply (X2_WriteOrWait_fills_the_free_slots Z 2%Z).
  - eapply ringbuffer.reach_New. reflexivity.
  - reflexivity.
Defined.

(** X3: as long as calls do not overlap (a [Read] runs from its call to its
    return while the writer takes no step), a writer of the blocking queue
    that has been woken has an item to write and a free slot for it; when it
    then goes on with no [Read] running beside it, with items of a type that
    is not an interface type, it does not panic; it stores as many of its
    items as there are free slots, at least one, in order and behind the
    items already stored, and then returns or waits again with the
    others. *)
Theorem X3_woken_writer_makes_progress
    (T : Type) (n : Z) (rb : ringbuffer.RingBuffer T) (items : list T) :
  ringbuffer.reachable n rb → ringbuffer.wr rb = ringbuffer.Woken items →
  ∃ rb0 old rb' rb'',
    ringbuffer.Read rb n = Some (rb0, old) ∧
    items ≠ [] ∧ 1 ≤ Z.to_nat n - 1 - length old ∧
    ringbuffer.resume rb = Some rb' ∧
    ringbuffer.wr rb' =
      (if decide (length items ≤ Z.to_nat n - 1 - length old)
       then ringbuffer.Idle
       else ringbuffer.Parked (drop (Z.to_nat n - 1 - length old) items)) ∧
    ringbuffer.Read rb' n
    = Some (rb'', old ++ take (Z.to_nat n - 1 - length old) items).
Proof.
  intros Hreach Hwr.
  destruct (rb_reachable_full_Inv _ _ Hreach) as (U & F & q & HI & Hn & _ & Hw).
  rewrite Hwr in Hw. destruct Hw as [HF Hitems].
  destruct (rb_Read_all n _ _ _ _ HI Hn) as (rb0 & HR).
  destruct F as [|f F]; [done|]. destruct items as [|item rest]; [done|].
  destruct (rb_write_and_move_Inv _ _ _ _ _ item HI)
    as (rb1 & Hwm & HI1 & Hw1 & _).
  destruct (WriteOrWait_loop_Inv rest _ _ _ _ HI1)
    as (rb' & U' & HW & HI' & HU' & Hwr' & _).
  assert (Hn' : Z.of_nat (length (U' ++ ringbuffer.writeHead rb'
                                    :: drop (length rest) F)) = n).
  { rewrite HU', Hw1, <-app_assoc. done. }
  destruct (rb_Read_all n _ _ _ _ HI' Hn') as (rb'' & HR').
  assert (HlF : S (length F) = Z.to_nat n - 1 - length q).
  { rewrite (rb_Inv_lengths _ _ _ _ HI). rewrite length_app in Hn. simpl in Hn. lia. }
  exists rb0, q, rb', rb''. rewrite <-HlF. split_and!; try done.
  - lia.
  - unfold ringbuffer.resume. by rewrite Hwr, Hwm.
  - rewrite Hwr'. simpl. repeat case_decide; try done; lia.
  - rewrite HR'. simpl. by rewrite <-app_assoc.
Qed.

Lemma X3_woken_writer_makes_progress_witness :
  ∃ rb0 old rb' rb'',
    ringbuffer.Read ringbuffer_woken 4 = Some (rb0, old) ∧
    [40%Z] ≠ [] ∧ 1 ≤ Z.to_nat 4 - 1 - length old ∧
    ringbuffer.resume ringbuffer_woken = Some rb' ∧
    ringbuffer.wr rb' =
      (if decide (length [40%Z] ≤ Z.to_nat 4 - 1 - length old)
       then ringbuffer.Idle
       else ringbuffer.Parked (drop (Z.to_nat 4 - 1 - length old) [40%Z])) ∧
    ringbuffer.Read rb' 4
    = Some (rb'', old ++ take (Z.to_nat 4 - 1 - length old) [40%Z]).
Proof.
  apply (X3_woken_writer_makes_progress Z 4%Z ringbuffer_woken [40%Z]).
  - eapply ringbuffer.reach_Read with (m := 1%Z);
      [eapply ringbuffer.reach_WriteOrWait with (newItems := [10; 20; 30; 40]%Z);
         [eapply ringbuffer.reach_New; reflexivity|reflexivity|reflexivity]
      |reflexivity].
  - reflexivity.
Defined.

(** X4: in any state the blocking queue reaches through calls that do not
    overlap, a [Read] during which the writer takes no step does not panic;
    it returns the oldest stored items, as many as asked for or all if there
    are fewer; it changes neither the heap (a slot keeps its value after it
    was read) nor the write head; the items it leaves are those a later
    [Read] finds; it leaves the writer as it was when it returns no item, and
    otherwise has signalled it, which wakes a writer that was parked. *)
Theorem X4_Read_returns_the_oldest_items
    (T : Type) (n : Z) (rb : ringbuffer.RingBuffer T) :
  ringbuffer.reachable n rb →
  ∃ rb0 old,
    ringbuffer.Read rb n = Some (rb0, old) ∧
    ∀ m : Z,
      ∃ rb' rb'',
        ringbuffer.Read rb m = Some (rb', take (Z.to_nat m) old) ∧
        ringbuffer.mem rb' = ringbuffer.mem rb ∧
        ringbuffer.writeHead rb' = ringbuffer.writeHead rb ∧
        ringbuffer.wr rb' =
          (if decide (take (Z.to_nat m) old = []) then ringbuffer.wr rb
           else ringbuffer.notify (ringbuffer.wr rb)) ∧
        ringbuffer.Read rb' n = Some (rb'', drop (Z.to_nat m) old).
Proof.
  intros Hreach.
  destruct (rb_reachable_full_Inv _ _ Hreach) as (U & F & q & HI & Hn & _).
  destruct (rb_Read_all n _ _ _ _ HI Hn) as (rb0 & HR).
  exists rb0, q. split; [done|]. intros m.
  destruct (Read_Inv _ _ _ _ m HI) as (rb' & HRm & HI' & Hm' & Hw' & Hwr').
  assert (Hn' : Z.of_nat (length (drop (Z.to_nat m) U ++ ringbuffer.writeHead rb'
                                    :: F ++ take (Z.to_nat m) U)) = n).
  { rewrite <-Hn, Hw'. rewrite !length_app. simpl.
    rewrite length_app, length_drop, length_take. lia. }
  destruct (rb_Read_all n _ _ _ _ HI' Hn') as (rb'' & HR').
  exists rb', rb''. split_and!; try done.
  rewrite Hwr'. pose proof (rb_Inv_lengths _ _ _ _ HI) as Hl.
  assert (take (Z.to_nat m) U = [] ↔ take (Z.to_nat m) q = []) as Hiff.
  { destruct (Z.to_nat m), U, q; simpl in *; split; intros; done. }
  repeat case_decide; try done; tauto.
Qed.

Lemma X4_Read_returns_the_oldest_items_witness :
  ∃ rb0 old,
    ringbuffer.Read ringbuffer_woken 4 = Some (rb0, old) ∧
    ∀ m : Z,
      ∃ rb' rb'',
        ringbuffer.Read ringbuffer_woken m = Some (rb', take (Z.to_nat m) old) ∧
        ringbuffer.mem rb' = ringbuffer.mem ringbuffer_woken ∧
        ringbuffer.writeHead rb' = ringbuffer.writeHead ringbuffer_woken ∧
        ringbuffer.wr rb' =
          (if decide (take (Z.to_nat m) old = [])
           then ringbuffer.wr ringbuffer_woken
           else ringbuffer.notify (ringbuffer.wr ringbuffer_woken)) ∧
        ringbuffer.Read rb' 4 = Some (rb'', drop (Z.to_nat m) old).
Proof.
  apply (X4_Read_returns_the_oldest_items Z 4%Z ringbuffer_woken).
  eapply ringbuffer.reach_Read with (m := 1%Z);
    [eapply ringbuffer.reach_WriteOrWait with (newItems := [10; 20; 30; 40]%Z);
       [eapply ringbuffer.reach_New; reflexivity|reflexivity|reflexivity]
    |reflexivity].
Defined.

(** X5: the blocking writer can miss its wake-up, because its test and its
    receive are two statements.  Take any state reached through calls that
    do not overlap, with no [WriteOrWait] under way and the ring full: a
    writer called now finds the ring full.  If a [Read] of [n] items runs
    before the writer has reached its receive, it returns all [n - 1] stored
    items, each of its signals is dropped, as the writer is not waiting yet,
    and it leaves the ring empty (and, with two slots or more, not full).
    The writer then parks with its items, and from then on every [Read]
    returns the empty result and leaves the writer parked. *)
Theorem X5_a_wake_up_can_be_missed
    (T : Type) (n : Z) (rb : ringbuffer.RingBuffer T) (items : list T) :
  ringbuffer.reachable n rb → ringbuffer.wr rb = ringbuffer.Idle →
  ringbuffer.full rb = Some true →
  ∃ rb1 out,
    ringbuffer.Read rb n = Some (rb1, out) ∧
    Z.of_nat (length out) = (n - 1)%Z ∧
    ringbuffer.wr rb1 = ringbuffer.Idle ∧
    ringbuffer.readHead rb1 = ringbuffer.writeHead rb1 ∧
    (2 ≤ n → ringbuffer.full rb1 = Some false)%Z ∧
    ∀ m, ringbuffer.Read (ringbuffer.park rb1 items) m
         = Some (ringbuffer.park rb1 items, []).
Proof.
  intros Hreach Hidle Hfull.
  destruct (rb_reachable_full_Inv _ _ Hreach) as (U & F & q & HI & Hn & _).
  pose proof (rb_Inv_lengths _ _ _ _ HI) as Hl.
  rewrite (rb_Inv_full _ _ _ _ HI) in Hfull.
  assert (F = []) as -> by (by injection Hfull as ?%bool_decide_eq_true).
  rewrite length_app in Hn. simpl in Hn.
  destruct (Read_Inv _ _ _ _ n HI) as (rb1 & HR & HI1 & _ & _ & Hwr1).
  rewrite take_ge in HR by lia.
  rewrite !drop_ge in HI1 by lia.
  assert (He : ringbuffer.readHead rb1 = ringbuffer.writeHead rb1).
  { destruct HI1 as (Hq & _). by eapply queue_at_empty. }
  exists rb1, q. split_and!; [done|lia| |done| |].
  - rewrite Hwr1, Hidle. by case_decide.
  - intros Hn2. rewrite (rb_Inv_full _ _ _ _ HI1). f_equal.
    apply bool_decide_eq_false. simpl. rewrite take_ge by lia.
    destruct U; [simpl in *; lia|done].
  - intros m. by apply Read_at_empty.
Qed.

Lemma X5_a_wake_up_can_be_missed_witness :
  ∃ rb1 out,
    ringbuffer.Read (ringbuffer.mkRingBuffer
                     [ring.mkRing 1 1 (Some (Some 10%Z)); ring.mkRing 0 0 None] 1 0
                     ringbuffer.Idle) 2 = Some (rb1, out) ∧
    Z.of_nat (length out) = (2 - 1)%Z ∧
    ringbuffer.wr rb1 = ringbuffer.Idle ∧
    ringbuffer.readHead rb1 = ringbuffer.writeHead rb1 ∧
    (2 ≤ 2 → ringbuffer.full rb1 = Some false)%Z ∧
    ∀ m, ringbuffer.Read (ringbuffer.park rb1 [20%Z]) m
         = Some (ringbuffer.park rb1 [20%Z], []).
Proof.
  apply (X5_a_wake_up_can_be_missed Z 2%Z _ [20%Z]).
  - eapply ringbuffer.reach_WriteOrWait with (newItems := [10%Z]);
      [eapply ringbuffer.reach_New; reflexivity|reflexivity|reflexivity].
  - reflexivity.
  - reflexivity.
Defined.

(** X6: a blocking queue constructed with capacity 1 never passes an item
    on: its only slot is never written, so in every state each [Read]
    returns the empty result and changes nothing, a [WriteOrWait] of one or
    more items waits at once without storing any, and the writer is never
    woken. *)
Theorem X6_capacity_one_never_delivers (T : Type) (rb : ringbuffer.RingBuffer T) :
  ringbuffer.reachable 1 rb →
  (∀ m, ringbuffer.Read rb m = Some (rb, [])) ∧
  (∀ item rest,
     ringbuffer.wr rb = ringbuffer.Idle →
     ringbuffer.WriteOrWait rb (item :: rest)
     = Some (ringbuffer.set_wr rb (ringbuffer.Parked (item :: rest)))) ∧
  (∀ items, ringbuffer.wr rb ≠ ringbuffer.Woken items) ∧
  ringbuffer.resume rb = Some rb.
Proof.
  intros Hreach.
  destruct (rb_reachable_full_Inv _ _ Hreach) as (U & F & q & HI & Hn & _ & Hw).
  rewrite length_app in Hn. simpl in Hn.
  destruct U as [|u U]; [|simpl in Hn; lia]. destruct F as [|f F]; [|simpl in Hn; lia].
  pose proof HI as (Hq & _).
  assert (He : ringbuffer.readHead rb = ringbuffer.writeHead rb)
    by (by eapply queue_at_empty).
  split_and!.
  - intros m. by apply Read_at_empty.
  - intros item rest _. unfold ringbuffer.WriteOrWait. simpl.
    by rewrite (rb_Inv_full _ _ _ _ HI).
  - intros items Hwr. rewrite Hwr in Hw. by destruct Hw.
  - unfold ringbuffer.resume. destruct (ringbuffer.wr rb) as [|l|l]; try done.
    by destruct Hw.
Qed.

Lemma X6_capacity_one_never_delivers_witness :
  (∀ m, ringbuffer.Read
          (ringbuffer.mkRingBuffer [ring.mkRing 0 0 None] 0 0 (ringbuffer.Parked [5%Z])) m
        = Some (ringbuffer.mkRingBuffer [ring.mkRing 0 0 None] 0 0
                  (ringbuffer.Parked [5%Z]), [])) ∧
  (∀ item rest,
     ringbuffer.wr
       (ringbuffer.mkRingBuffer [ring.mkRing 0 0 None] 0 0 (ringbuffer.Parked [5%Z]))
     = ringbuffer.Idle →
     ringbuffer.WriteOrWait
       (ringbuffer.mkRingBuffer [ring.mkRing 0 0 None] 0 0 (ringbuffer.Parked [5%Z]))
       (item :: rest)
     = Some (ringbuffer.set_wr
               (ringbuffer.mkRingBuffer [ring.mkRing 0 0 None] 0 0
                  (ringbuffer.Parked [5%Z]))
               (ringbuffer.Parked (item :: rest)))) ∧
  (∀ items,
     ringbuffer.wr
       (ringbuffer.mkRingBuffer [ring.mkRing 0 0 None] 0 0 (ringbuffer.Parked [5%Z]))
     ≠ ringbuffer.Woken items) ∧
  ringbuffer.resume
    (ringbuffer.mkRingBuffer [ring.mkRing 0 0 None] 0 0 (ringbuffer.Parked [5%Z]))
  = Some (ringbuffer.mkRingBuffer [ring.mkRing 0 0 None] 0 0 (ringbuffer.Parked [5%Z])).
Proof.
  apply (X6_capacity_one_never_delivers Z).
  eapply ringbuffer.reach_WriteOrWait with (newItems := [5%Z]);
    [eapply ringbuffer.reach_New; reflexivity|reflexivity|reflexivity].
Defined.

(** X7: the ring of the blocking queue never changes size: in every state
    of a queue constructed with capacity [n], reached through calls that do
    not overlap, the heap holds exactly [n] ring slots, so that no slot was
    allocated after [New], and the ring, counted as [ring.Len] counts it
    from either head, has [n] slots.  (The [atomic.Value] that [write]
    allocates when it first writes a slot is not a slot and is not
    counted.) *)
Theorem X7_ringbuffer_capacity_is_constant
    (T : Type) (n : Z) (rb : ringbuffer.RingBuffer T) :
  ringbuffer.reachable n rb →
  (0 < n)%Z ∧
  length (ringbuffer.mem rb) = Z.to_nat n ∧
  ring.Len (ringbuffer.mem rb) (Z.to_nat n) (ringbuffer.readHead rb)
    = Some (Z.to_nat n) ∧
  ring.Len (ringbuffer.mem rb) (Z.to_nat n) (ringbuffer.writeHead rb)
    = Some (Z.to_nat n).
Proof.
  intros Hreach.
  destruct (rb_reachable_full_Inv _ _ Hreach) as (U & F & q & HI & Hn & Hm & _).
  pose proof HI as (Hq & _).
  assert (Hlen : length (U ++ ringbuffer.writeHead rb :: F) = Z.to_nat n) by lia.
  rewrite length_app in Hn. simpl in Hn.
  split_and!; [lia|done| |].
  - rewrite <-Hlen. apply Len_queue_at; [done|]. rewrite length_app. lia.
  - destruct Hq as [Hr _]. apply is_ring_rotate in Hr. simpl in Hr.
    rewrite (Len_is_ring _ _ _ (Z.to_nat n) Hr).
    + f_equal. rewrite length_app in *. simpl in *. lia.
    + rewrite length_app. lia.
Qed.

Lemma X7_ringbuffer_capacity_is_constant_witness :
  (0 < 4)%Z ∧
  length (ringbuffer.mem ringbuffer_woken) = Z.to_nat 4 ∧
  ring.Len (ringbuffer.mem ringbuffer_woken) (Z.to_nat 4)
    (ringbuffer.readHead ringbuffer_woken) = Some (Z.to_nat 4) ∧
  ring.Len (ringbuffer.mem ringbuffer_woken) (Z.to_nat 4)
    (ringbuffer.writeHead ringbuffer_woken) = Some (Z.to_nat 4).
Proof.
  apply (X7_ringbuffer_capacity_is_constant Z 4%Z ringbuffer_woken).
  eapply ringbuffer.reach_Read with (m := 1%Z);
    [eapply ringbuffer.reach_WriteOrWait with (newItems := [10; 20; 30; 40]%Z);
       [eapply ringbuffer.reach_New; reflexivity|reflexivity|reflexivity]
    |reflexivity].
Defined.

(** X8: reading from the blocking queue in two calls is the same as reading
    in one: for counts [a] and [b] that are not negative, [Read(a + b)]
    returns the items of [Read(a)] followed by those of a [Read(b)] made
    right after it, ends in the same state and panics if and only if one of
    the two does; this holds in every state. *)
Theorem X8_Read_in_two_calls
    (T : Type) (rb : ringbuffer.RingBuffer T) (a b : Z) :
  (0 ≤ a)%Z → (0 ≤ b)%Z →
  ringbuffer.Read rb (a + b)
  = '(rb1, o1) ← ringbuffer.Read rb a;
    '(rb2, o2) ← ringbuffer.Read rb1 b;
    Some (rb2, o1 ++ o2).
Proof.
  intros Ha Hb. unfold ringbuffer.Read.
  destruct (decide (a ≤ 0)%Z) as [Ha0|Ha0]; simpl.
  - replace (a + b)%Z with b by lia.
    case_decide; simpl; [done|].
    by destruct (ringbuffer.Read_loop (Z.to_nat b) rb []) as [[rb2 o2]|].
  - rewrite decide_False by lia.
    rewrite Z2Nat.inj_add by lia. rewrite Read_loop_add.
    destruct (ringbuffer.Read_loop (Z.to_nat a) rb []) as [[rb1 o1]|]; simpl; [|done].
    case_decide; simpl; [|done].
    replace (Z.to_nat b) with 0 by lia. simpl. done.
Qed.

Lemma X8_Read_in_two_calls_witness :
  ringbuffer.Read ringbuffer_woken (1 + 2)
  = '(rb1, o1) ← ringbuffer.Read ringbuffer_woken 1;
    '(rb2, o2) ← ringbuffer.Read rb1 2;
    Some (rb2, o1 ++ o2).
Proof.
  apply (X8_Read_in_two_calls Z ringbuffer_woken 1%Z 2%Z); lia.
Defined.

(** ** More on the growing queue *)

Section cirque_extras.
Context {T : Type}.
Implicit Types (cq : cirque.Cirque T) (U F : list nat) (q items : list T).

Lemma Dequeue_loop_acc (i : nat) : ∀ cq (result : list T),
  cirque.Dequeue_loop i cq result
  = '(cq', out) ← cirque.Dequeue_loop i cq []; Some (cq', result ++ out).
Proof.
  induction i as [|i IH]; intros cq result; simpl.
  - by rewrite app_nil_r.
  - case_decide; simpl; [by rewrite app_nil_r|].
    destruct (cirque.read cq) as [v|]; simpl; [|done].
    destruct (cirque.moveReaderHeadForward _) as [cq1|]; simpl; [|done].
    rewrite (IH cq1 (result ++ [v])), (IH cq1 [v]).
    destruct (cirque.Dequeue_loop i cq1 []) as [[cq' out]|]; simpl; [|done].
    by rewrite <-app_assoc.
Qed.

Lemma Dequeue_loop_add (i j : nat) : ∀ cq,
  cirque.Dequeue_loop (i + j) cq []
  = '(cq1, o1) ← cirque.Dequeue_loop i cq [];
    '(cq2, o2) ← cirque.Dequeue_loop j cq1 [];
    Some (cq2, o1 ++ o2).
Proof.
  induction i as [|i IH]; intros cq; simpl.
  - by destruct (cirque.Dequeue_loop j cq []) as [[cq2 o2]|].
  - case_decide as He; simpl.
    + destruct j; simpl; [done|]. by rewrite decide_True.
    + destruct (cirque.read cq) as [v|]; simpl; [|done].
      destruct (cirque.moveReaderHeadForward _) as [cq1|]; simpl; [|done].
      rewrite (Dequeue_loop_acc (i + j) cq1 [v]), (Dequeue_loop_acc i cq1 [v]), IH.
      destruct (cirque.Dequeue_loop i cq1 []) as [[cq' o1]|]; simpl; [|done].
      by destruct (cirque.Dequeue_loop j cq' []) as [[cq'' o2]|].
Qed.

(** [Dequeue] touches only the read head and [len]. *)
Lemma Dequeue_frame cq U F q (n : Z) :
  cirque.Inv cq U F q →
  ∃ cq',
    cirque.Dequeue cq n = Some (cq', take (Z.to_nat n) q) ∧
    cirque.Inv cq' (drop (Z.to_nat n) U) (F ++ take (Z.to_nat n) U)
      (drop (Z.to_nat n) q) ∧
    cirque.mem cq' = cirque.mem cq ∧
    cirque.writeHead cq' = cirque.writeHead cq ∧
    cirque.cap cq' = cirque.cap cq.
Proof.
  intros HI. unfold cirque.Dequeue. case_decide as Hn.
  - exists cq. replace (Z.to_nat n) with 0 by lia.
    rewrite !drop_0, !take_0, app_nil_r. done.
  - destruct (Dequeue_loop_Inv (Z.to_nat n) _ _ _ _ [] HI) as (cq' & Hloop & H').
    by exists cq'.
Qed.


(** An iteration of [Enqueue] allocates exactly the slots it adds to [cap]. *)
Lemma Enqueue_item_heap (b : Z) cq U F q item :
  (0 ≤ b)%Z → cirque.Inv cq U F q →
  ∃ cq', cirque.Enqueue_item b cq item = Some cq' ∧
    (Z.of_nat (length (cirque.mem cq')) - cirque.cap cq'
     = Z.of_nat (length (cirque.mem cq)) - cirque.cap cq)%Z.
Proof.
  intros Hb HI. unfold cirque.Enqueue_item. rewrite (Inv_full _ _ _ _ HI). simpl.
  destruct F as [|f F].
  - rewrite bool_decide_true by done.
    assert (Hcap : (0 < cirque.cap cq)%Z).
    { destruct HI as (_ & _ & _ & ->). rewrite length_app. simpl. lia. }
    destruct (grow_Inv _ _ _ _ (cirque.cap cq + b)%Z ltac:(lia) HI)
      as (cq1 & Hg & HI1 & Hc1 & _ & _ & _ & Hm1 & _).
    rewrite Hg. simpl. rewrite app_nil_r in HI1.
    destruct (Z.to_nat (cirque.cap cq + b)) as [|k] eqn:Hk; [lia|].
    simpl in HI1.
    destruct (write_move_Inv _ _ _ _ _ item HI1)
      as (cq' & Hwm & _ & Hc' & _ & _ & Hm').
    rewrite Hwm. exists cq'. split; [done|]. lia.
  - rewrite bool_decide_false by done. simpl.
    destruct (write_move_Inv _ _ _ _ _ item HI)
      as (cq' & Hwm & _ & Hc' & _ & _ & Hm').
    rewrite Hwm. exists cq'. split; [done|]. lia.
Qed.

Lemma Enqueue_loop_heap (b : Z) items : ∀ cq U F q,
  (Z.of_nat (length items) ≤ b)%Z → cirque.Inv cq U F q →
  ∃ cq', cirque.Enqueue_loop b cq items = Some cq' ∧
    (Z.of_nat (length (cirque.mem cq')) - cirque.cap cq'
     = Z.of_nat (length (cirque.mem cq)) - cirque.cap cq)%Z.
Proof.
  induction items as [|item rest IH]; intros cq U F q Hb HI; simpl.
  - by exists cq.
  - simpl in Hb.
    destruct (Enqueue_item_heap b _ _ _ _ item ltac:(lia) HI) as (cq1 & Hit & Hh1).
    destruct (Enqueue_item_Inv b _ _ _ _ item ltac:(lia) HI)
      as (cq1' & F1 & Hit' & HI1 & _).
    rewrite Hit in Hit'. injection Hit' as <-.
    rewrite Hit. simpl.
    destruct (IH cq1 _ F1 _ ltac:(lia) HI1) as (cq' & Hloop & Hh').
    exists cq'. split; [done|]. lia.
Qed.

(** In every state of the queue the heap holds exactly [cap] slots. *)
Lemma reachable_heap cq :
  cirque.reachable cq →
  ∃ U F q, cirque.Inv cq U F q ∧
    length (cirque.mem cq) = Z.to_nat (cirque.cap cq).
Proof.
  induction 1 as [n cq HN|cq elements cq' _ (U & F & q & HI & Hm) HE
                 |cq n cq' out _ (U & F & q & HI & Hm) HD].
  - destruct (decide (n ≤ 0)%Z) as [Hn|Hn].
    { unfold cirque.New in HN. by rewrite decide_True in HN. }
    destruct (cirque_New_Inv (T:=T) n ltac:(lia)) as (cq0 & HN' & HI & _ & Hc & _ & Hl).
    rewrite HN' in HN. injection HN as <-. exists [], (seq 1 (Z.to_nat n - 1)), [].
    split; [done|]. by rewrite Hc.
  - destruct (Enqueue_Inv _ _ _ _ elements HI) as (cq1 & U1 & F1 & HE' & HI1 & _).
    destruct (Enqueue_loop_heap (Z.of_nat (length elements)) elements
                _ _ _ _ ltac:(lia) HI) as (cq2 & HE2 & Hh).
    unfold cirque.Enqueue in HE, HE'. rewrite HE in HE', HE2.
    injection HE' as <-. injection HE2 as <-.
    exists U1, F1, (q ++ elements). split; [done|].
    assert (0 < cirque.cap cq)%Z.
    { destruct HI as (_ & _ & _ & ->). rewrite length_app. simpl. lia. }
    assert (0 < cirque.cap cq')%Z.
    { destruct HI1 as (_ & _ & _ & ->). rewrite length_app. simpl. lia. }
    lia.
  - destruct (Dequeue_frame _ _ _ _ n HI) as (cq1 & HD' & HI1 & Hm1 & _ & Hc1).
    rewrite HD in HD'. injection HD' as <- _.
    eexists _, _, _. split; [exact HI1|]. by rewrite Hm1, Hc1.
Qed.

(** [cap] only grows: [grow] adds an amount that is not negative, and
    nothing else stores to [cap]. *)
Lemma grow_cap_le cq (min : Z) cq' :
  cirque.grow cq min = Some cq' → (cirque.cap cq ≤ cirque.cap cq')%Z.
Proof.
  unfold cirque.grow. case_decide as Hm; [by intros [= <-]|].
  destruct (ring.New (cirque.mem cq) min) as [h1 newRing].
  destruct (ring.Link h1 (cirque.writeHead cq) newRing) as [[h2 r]|]; simpl; [|done].
  intros [= <-]. simpl. lia.
Qed.

Lemma Enqueue_item_cap_le (b : Z) cq (item : T) cq' :
  cirque.Enqueue_item b cq item = Some cq' → (cirque.cap cq ≤ cirque.cap cq')%Z.
Proof.
  unfold cirque.Enqueue_item, cirque.write, cirque.moveWriterHeadForward.
  destruct (cirque.full cq) as [f|]; simpl; [|done].
  destruct (if f then cirque.grow cq (cirque.cap cq + b) else Some cq)
    as [cq1|] eqn:Hg; simpl; [|done].
  assert (cirque.cap cq ≤ cirque.cap cq1)%Z as Hle.
  { destruct f; [by eapply grow_cap_le|]. injection Hg as <-. lia. }
  destruct (ring.set_Value _ _ _) as [h|]; simpl; [|done].
  destruct (ring.Next _ _) as [a|]; simpl; [|done].
  intros [= <-]. done.
Qed.

Lemma Enqueue_loop_cap_le (b : Z) (items : list T) : ∀ cq cq',
  cirque.Enqueue_loop b cq items = Some cq' → (cirque.cap cq ≤ cirque.cap cq')%Z.
Proof.
  induction items as [|item rest IH]; intros cq cq'; simpl.
  - intros [= <-]. lia.
  - destruct (cirque.Enqueue_item b cq item) as [cq1|] eqn:HE; simpl; [|done].
    intros Hl. apply Enqueue_item_cap_le in HE. apply IH in Hl. lia.
Qed.

Lemma Dequeue_loop_cap (i : nat) : ∀ cq (result : list T) cq' out,
  cirque.Dequeue_loop i cq result = Some (cq', out) → cirque.cap cq' = cirque.cap cq.
Proof.
  induction i as [|i IH]; intros cq result cq' out; simpl.
  - by intros [= <- _].
  - case_decide; [by intros [= <- _]|].
    destruct (cirque.read cq) as [v|]; simpl; [|done].
    unfold cirque.moveReaderHeadForward. simpl.
    destruct (ring.Next _ _) as [a|]; simpl; [|done].
    intros Hl. by apply IH in Hl.
Qed.

Lemma run_cap_le (ops : list (cirque.op T)) : ∀ cq cq' outs,
  cirque.run cq ops = Some (cq', outs) → (cirque.cap cq ≤ cirque.cap cq')%Z.
Proof.
  induction ops as [|[elements|n] ops IH]; intros cq cq' outs; simpl.
  - intros [= <- _]. lia.
  - destruct (cirque.Enqueue cq elements) as [cq1|] eqn:HE; simpl; [|done].
    intros Hr. apply IH in Hr. apply Enqueue_loop_cap_le in HE. lia.
  - destruct (cirque.Dequeue cq n) as [[cq1 out]|] eqn:HD; simpl; [|done].
    destruct (cirque.run cq1 ops) as [[cq2 outs']|] eqn:Hr; simpl; [|done].
    intros [= <- _]. apply IH in Hr.
    unfold cirque.Dequeue in HD. case_decide.
    + injection HD as <- _. done.
    + apply Dequeue_loop_cap in HD. lia.
Qed.
End cirque_extras.

(** X9: dequeuing from the growing queue in two calls is the same as
    dequeuing in one: for counts [a] and [b] that are not negative,
    [Dequeue(a + b)] returns the items of [Dequeue(a)] followed by those of
    a [Dequeue(b)] made right after it, ends in the same state and panics if
    and only if one of the two does; this holds in every state. *)
Theorem X9_Dequeue_in_two_calls (T : Type) (cq : cirque.Cirque T) (a b : Z) :
  (0 ≤ a)%Z → (0 ≤ b)%Z →
  cirque.Dequeue cq (a + b)
  = '(cq1, o1) ← cirque.Dequeue cq a;
    '(cq2, o2) ← cirque.Dequeue cq1 b;
    Some (cq2, o1 ++ o2).
Proof.
  intros Ha Hb. unfold cirque.Dequeue.
  destruct (decide (a ≤ 0)%Z) as [Ha0|Ha0]; simpl.
  - replace (a + b)%Z with b by lia.
    case_decide; simpl; [done|].
    by destruct (cirque.Dequeue_loop (Z.to_nat b) cq []) as [[cq2 o2]|].
  - rewrite decide_False by lia.
    rewrite Z2Nat.inj_add by lia. rewrite Dequeue_loop_add.
    destruct (cirque.Dequeue_loop (Z.to_nat a) cq []) as [[cq1 o1]|]; simpl; [|done].
    case_decide; simpl; [|done].
    replace (Z.to_nat b) with 0 by lia. simpl. done.
Qed.

Lemma X9_Dequeue_in_two_calls_witness :
  cirque.Dequeue cirque_example (1 + 2)
  = '(cq1, o1) ← cirque.Dequeue cirque_example 1;
    '(cq2, o2) ← cirque.Dequeue cq1 2;
    Some (cq2, o1 ++ o2).
Proof.
  apply (X9_Dequeue_in_two_calls Z cirque_example 1%Z 2%Z); lia.
Defined.



(** X11: the counter [cap] of the growing queue is what [ring.Len] would
    compute: in every state the ring, counted from either head, has exactly
    [cap] slots, and these are all the slots ever allocated; [cap] is
    positive. *)
Theorem X11_cap_is_the_length_of_the_ring (T : Type) (cq : cirque.Cirque T) :
  cirque.reachable cq →
  (0 < cirque.cap cq)%Z ∧
  length (cirque.mem cq) = Z.to_nat (cirque.cap cq) ∧
  ring.Len (cirque.mem cq) (Z.to_nat (cirque.cap cq)) (cirque.readHead cq)
    = Some (Z.to_nat (cirque.cap cq)) ∧
  ring.Len (cirque.mem cq) (Z.to_nat (cirque.cap cq)) (cirque.writeHead cq)
    = Some (Z.to_nat (cirque.cap cq)).
Proof.
  intros Hreach. destruct (reachable_heap _ Hreach) as (U & F & q & HI & Hm).
  pose proof HI as (Hq & _ & _ & Hcap).
  assert (Hlen : length (U ++ cirque.writeHead cq :: F) = Z.to_nat (cirque.cap cq))
    by lia.
  rewrite length_app in Hcap. simpl in Hcap.
  split_and!; [lia|done| |].
  - rewrite <-Hlen. apply Len_queue_at; [done|]. rewrite length_app. lia.
  - destruct Hq as [Hr _]. apply is_ring_rotate in Hr. simpl in Hr.
    rewrite (Len_is_ring _ _ _ (Z.to_nat (cirque.cap cq)) Hr).
    + f_equal. rewrite length_app in *. simpl in *. lia.
    + rewrite length_app. lia.
Qed.

Lemma X11_cap_is_the_length_of_the_ring_witness :
  (0 < cirque.cap cirque_example)%Z ∧
  length (cirque.mem cirque_example) = Z.to_nat (cirque.cap cirque_example) ∧
  ring.Len (cirque.mem cirque_example) (Z.to_nat (cirque.cap cirque_example))
    (cirque.readHead cirque_example)
    = Some (Z.to_nat (cirque.cap cirque_example)) ∧
  ring.Len (cirque.mem cirque_example) (Z.to_nat (cirque.cap cirque_example))
    (cirque.writeHead cirque_example)
    = Some (Z.to_nat (cirque.cap cirque_example)).
Proof.
  apply (X11_cap_is_the_length_of_the_ring Z cirque_example).
  eapply cirque.reach_Enqueue with (elements := [7%Z]);
    [eapply cirque.reach_New with (n := 2%Z); reflexivity|reflexivity].
Defined.

(** X12: the growing queue never shrinks: from any state, whenever a
    sequence of [Enqueue] and [Dequeue] calls that do not overlap has run to
    its end, [cap] at the end is at least [cap] at the start. *)
Theorem X12_cap_never_decreases
    (T : Type) (cq : cirque.Cirque T) (ops : list (cirque.op T))
    (cq' : cirque.Cirque T) (outs : list (list T)) :
  cirque.run cq ops = Some (cq', outs) →
  (cirque.cap cq ≤ cirque.cap cq')%Z.
Proof. apply run_cap_le. Qed.

Lemma X12_cap_never_decreases_witness :
  ∃ cq' outs,
    cirque.run cirque_example
      [cirque.OpEnqueue [8; 9]%Z; cirque.OpDequeue 5; cirque.OpEnqueue [1%Z]]
    = Some (cq', outs) ∧
    (cirque.cap cirque_example ≤ cirque.cap cq')%Z.
Proof.
  eexists _, _. split; [reflexivity|].
  eapply (X12_cap_never_decreases Z cirque_example
           [cirque.OpEnqueue [8; 9]%Z; cirque.OpDequeue 5; cirque.OpEnqueue [1%Z]]).
  reflexivity.
Defined.

(** X13: readers do not notice a growth: in any state of the growing queue
    a growth by a positive amount succeeds and leaves [Len] and the result
    of every [Dequeue] as they were. *)
Theorem X13_growth_is_invisible_to_readers
    (T : Type) (cq : cirque.Cirque T) (k : Z) :
  cirque.reachable cq → (0 < k)%Z →
  ∃ cq',
    cirque.grow cq k = Some cq' ∧
    cirque.Len cq' = cirque.Len cq ∧
    ∀ n : Z, ∃ cq1 cq1' out,
      cirque.Dequeue cq n = Some (cq1, out) ∧
      cirque.Dequeue cq' n = Some (cq1', out).
Proof.
  intros Hreach Hk. destruct (reachable_Inv _ Hreach) as (U & F & q & HI).
  destruct (grow_Inv _ _ _ _ k Hk HI) as (cq' & Hg & HI' & _ & Hl & _).
  exists cq'. split_and!; [done|done|]. intros n.
  destruct (Dequeue_Inv _ _ _ _ n HI) as (cq1 & HD & _).
  destruct (Dequeue_Inv _ _ _ _ n HI') as (cq1' & HD' & _).
  by exists cq1, cq1', (take (Z.to_nat n) q).
Qed.

Lemma X13_growth_is_invisible_to_readers_witness :
  ∃ cq',
    cirque.grow cirque_example 3 = Some cq' ∧
    cirque.Len cq' = cirque.Len cirque_example ∧
    ∀ n : Z, ∃ cq1 cq1' out,
      cirque.Dequeue cirque_example n = Some (cq1, out) ∧
      cirque.Dequeue cq' n = Some (cq1', out).
Proof.
  apply (X13_growth_is_invisible_to_readers Z cirque_example 3%Z).
  - eapply cirque.reach_Enqueue with (elements := [7%Z]);
      [eapply cirque.reach_New with (n := 2%Z); reflexivity|reflexivity].
  - lia.
Defined.

(** ** One batch or several calls *)

Section batches.
Context {T : Type}.

Lemma write_and_move_set_wr (rb : ringbuffer.RingBuffer T) w item :
  ringbuffer.write_and_move (ringbuffer.set_wr rb w) item
  = (λ rb', ringbuffer.set_wr rb' w) <$> ringbuffer.write_and_move rb item.
Proof.
  unfold ringbuffer.write_and_move, ringbuffer.write, ringbuffer.getWriterHead. simpl.
  destruct (ring.get_Value (ringbuffer.mem rb) (ringbuffer.writeHead rb))
    as [v|]; simpl; [|done].
  destruct (match v with
            | Some _ => Some (ringbuffer.mem rb)
            | None => ring.set_Value (ringbuffer.mem rb) (ringbuffer.writeHead rb)
                        (Some None)
            end) as [m1|]; simpl; [|done].
  destruct (ring.get_Value m1 (ringbuffer.writeHead rb)) as [[bx|]|]; simpl; try done.
  destruct (ring.set_Value m1 (ringbuffer.writeHead rb) (Some (Some item)))
    as [m2|]; simpl; [|done].
  unfold ringbuffer.moveWriterHeadForward. simpl.
  by destruct (ring.Next m2 (ringbuffer.writeHead rb)).
Qed.

Lemma WriteOrWait_loop_set_wr (items : list T) : ∀ (rb : ringbuffer.RingBuffer T) w,
  ringbuffer.WriteOrWait_loop (ringbuffer.set_wr rb w) items
  = ringbuffer.WriteOrWait_loop rb items.
Proof.
  induction items as [|item rest IH]; intros rb w; simpl; [done|].
  change (ringbuffer.full (ringbuffer.set_wr rb w)) with (ringbuffer.full rb).
  destruct (ringbuffer.full rb) as [[|]|]; simpl; try done.
  rewrite write_and_move_set_wr.
  destruct (ringbuffer.write_and_move rb item) as [rb1|]; simpl; [|done].
  apply IH.
Qed.

Lemma WriteOrWait_loop_app (a b : list T) : ∀ rb : ringbuffer.RingBuffer T,
  ringbuffer.WriteOrWait_loop rb (a ++ b)
  = rb1 ← ringbuffer.WriteOrWait_loop rb a;
    match ringbuffer.wr rb1 with
    | ringbuffer.Parked l => Some (ringbuffer.set_wr rb1 (ringbuffer.Parked (l ++ b)))
    | _ => ringbuffer.WriteOrWait_loop rb1 b
    end.
Proof.
  induction a as [|item a IH]; intros rb; simpl.
  - by rewrite WriteOrWait_loop_set_wr.
  - destruct (ringbuffer.full rb) as [[|]|]; simpl; try done.
    destruct (ringbuffer.write_and_move rb item) as [rb1|]; simpl; [|done].
    apply IH.
Qed.
End batches.

(** X14: the blocking writer handles a batch item by item: [WriteOrWait] of
    the items [a] followed by the items [b] does what [WriteOrWait] of [a]
    does and then, if that call returned, what a call with [b] does next; if
    the call with [a] waits, the call with both waits at the same item, in
    the same state, with [b] added to the items still to write.  This holds
    in every state, panics included. *)
Theorem X14_WriteOrWait_batch_is_item_by_item
    (T : Type) (rb : ringbuffer.RingBuffer T) (a b : list T) :
  ringbuffer.WriteOrWait rb (a ++ b)
  = rb1 ← ringbuffer.WriteOrWait rb a;
    match ringbuffer.wr rb1 with
    | ringbuffer.Parked l => Some (ringbuffer.set_wr rb1 (ringbuffer.Parked (l ++ b)))
    | _ => ringbuffer.WriteOrWait rb1 b
    end.
Proof. unfold ringbuffer.WriteOrWait. apply WriteOrWait_loop_app. Qed.

(** X15: for what the growing queue holds it does not matter whether items
    are enqueued in one call or in two: in any state, [Enqueue] of [a]
    followed by [b] and [Enqueue] of [a] then [Enqueue] of [b] all succeed,
    give the same [Len], namely the old one plus the number of items, and
    the same result for every [Dequeue].  (The capacities may differ, since
    a growth is sized by the length of the call's batch.) *)
Theorem X15_Enqueue_in_one_call_or_two
    (T : Type) (cq : cirque.Cirque T) (a b : list T) :
  cirque.reachable cq →
  ∃ c12 c1 c2,
    cirque.Enqueue cq (a ++ b) = Some c12 ∧
    cirque.Enqueue cq a = Some c1 ∧ cirque.Enqueue c1 b = Some c2 ∧
    cirque.Len c12 = (cirque.Len cq + Z.of_nat (length a) + Z.of_nat (length b))%Z ∧
    cirque.Len c2 = cirque.Len c12 ∧
    ∀ n : Z, ∃ d12 d2 out,
      cirque.Dequeue c12 n = Some (d12, out) ∧ cirque.Dequeue c2 n = Some (d2, out).
Proof.
  intros Hreach. destruct (reachable_Inv _ Hreach) as (U & F & q & HI).
  destruct (Enqueue_Inv _ _ _ _ (a ++ b) HI) as (c12 & U12 & F12 & HE12 & HI12 & _).
  destruct (Enqueue_Inv _ _ _ _ a HI) as (c1 & U1 & F1 & HE1 & HI1 & _).
  destruct (Enqueue_Inv _ _ _ _ b HI1) as (c2 & U2 & F2 & HE2 & HI2 & _).
  rewrite <-app_assoc in HI2.
  exists c12, c1, c2. split_and!; try done.
  - rewrite (Inv_Len _ _ _ _ HI12), (Inv_Len _ _ _ _ HI), !length_app. lia.
  - by rewrite (Inv_Len _ _ _ _ HI12), (Inv_Len _ _ _ _ HI2).
  - intros n.
    destruct (Dequeue_Inv _ _ _ _ n HI12) as (d12 & HD12 & _).
    destruct (Dequeue_Inv _ _ _ _ n HI2) as (d2 & HD2 & _).
    by exists d12, d2, (take (Z.to_nat n) (q ++ a ++ b)).
Qed.

Lemma X15_Enqueue_in_one_call_or_two_witness :
  ∃ c12 c1 c2,
    cirque.Enqueue cirque_example ([8; 9] ++ [1])%Z = Some c12 ∧
    cirque.Enqueue cirque_example [8; 9]%Z = Some c1 ∧
    cirque.Enqueue c1 [1%Z] = Some c2 ∧
    cirque.Len c12
    = (cirque.Len cirque_example + Z.of_nat (length [8; 9]%Z)
       + Z.of_nat (length [1%Z]))%Z ∧
    cirque.Len c2 = cirque.Len c12 ∧
    ∀ n : Z, ∃ d12 d2 out,
      cirque.Dequeue c12 n = Some (d12, out) ∧ cirque.Dequeue c2 n = Some (d2, out).
Proof.
  apply (X15_Enqueue_in_one_call_or_two Z cirque_example [8; 9]%Z [1%Z]).
  eapply cirque.reach_Enqueue with (elements := [7%Z]);
    [eapply cirque.reach_New with (n := 2%Z); reflexivity|reflexivity].
Defined.

(** X16: for an element type that is not an interface type, in every state
    the growing queue reaches through [New] and calls of [Enqueue] and
    [Dequeue] that do not overlap, the read head is not past the write head:
    following [Next] from the read head leads, within [len] steps and
    without leaving the ring, to the write head; every slot met on the way
    holds a written value; so whenever the heads differ the value
    extraction of [read] succeeds, and no [Dequeue] fails. *)
Theorem X16_read_head_behind_write_head (T : Type) (cq : cirque.Cirque T) :
  cirque.reachable cq →
  ∃ slots : list nat,
    ring.walk (cirque.mem cq) (Z.to_nat (cirque.len cq))
      (cirque.readHead cq) (cirque.writeHead cq) = Some slots ∧
    Z.of_nat (length slots) = cirque.len cq ∧
    (cirque.len cq < cirque.cap cq)%Z ∧
    (∀ a, a ∈ slots → ∃ v, ring.get_Value (cirque.mem cq) a = Some (Some v)) ∧
    (cirque.readHead cq ≠ cirque.writeHead cq → ∃ v, cirque.read cq = Some v) ∧
    (∀ n, ∃ cq' out, cirque.Dequeue cq n = Some (cq', out) ∧ cirque.reachable cq').
Proof.
  intros Hreach. destruct (reachable_Inv _ Hreach) as (U & F & q & HI).
  pose proof HI as (Hq & Hv & Hlen & Hcap).
  exists U. split_and!.
  - eapply walk_queue_at; [exact Hq|lia].
  - done.
  - rewrite Hlen, Hcap, length_app. simpl. lia.
  - intros a Ha. apply list_elem_of_lookup in Ha as [i Hi].
    apply (f_equal (λ l, l !! i)) in Hv. rewrite !list_lookup_fmap, Hi in Hv.
    simpl in Hv. destruct (q !! i) as [v|]; [|done]. exists v. by simplify_eq/=.
  - intros Hne. destruct U as [|u U].
    { exfalso. apply Hne. by eapply queue_at_empty. }
    destruct q as [|v q]; [done|]. exists v.
    destruct (queue_at_move_read _ _ _ _ _ _ Hq) as (Hru & _).
    simpl in Hv. injection Hv as Hvu _.
    unfold cirque.read, cirque.getReaderHead. by rewrite Hru, Hvu.
  - intros n. destruct (Dequeue_Inv _ _ _ _ n HI) as (cq' & HD & _).
    exists cq', (take (Z.to_nat n) q). split; [done|].
    by eapply cirque.reach_Dequeue.
Qed.

Lemma X16_read_head_behind_write_head_witness :
  ∃ slots : list nat,
    ring.walk (cirque.mem cirque_example) (Z.to_nat (cirque.len cirque_example))
      (cirque.readHead cirque_example) (cirque.writeHead cirque_example)
      = Some slots ∧
    Z.of_nat (length slots) = cirque.len cirque_example ∧
    (cirque.len cirque_example < cirque.cap cirque_example)%Z ∧
    (∀ a, a ∈ slots →
       ∃ v, ring.get_Value (cirque.mem cirque_example) a = Some (Some v)) ∧
    (cirque.readHead cirque_example ≠ cirque.writeHead cirque_example →
       ∃ v, cirque.read cirque_example = Some v) ∧
    (∀ n, ∃ cq' out, cirque.Dequeue cirque_example n = Some (cq', out) ∧
                     cirque.reachable cq').
Proof.
  apply (X16_read_head_behind_write_head Z cirque_example).
  eapply cirque.reach_Enqueue with (elements := [7%Z]);
    [eapply cirque.reach_New with (n := 2%Z); reflexivity|reflexivity].
Defined.

(** X17: for an element type that is not an interface type and calls that do
    not overlap, [Enqueue] of any number of items, also of more than the
    initial capacity, never blocks or fails and never drops an item: any
    sequence of [Enqueue] and [Dequeue] calls on a new queue runs
    to its end, [Len] is then the number of items enqueued minus the number
    of items dequeued, and the items enqueued are, in order, exactly those
    already dequeued followed by those a [Dequeue] of [Len] items returns. *)
Theorem X17_sequential_growth_transparency (T : Type) (n : Z) (ops : list (cirque.op T)) :
  (0 < n)%Z →
  ∃ cq0 cq outs cq' rest,
    cirque.New T n = Some cq0 ∧
    cirque.run cq0 ops = Some (cq, outs) ∧
    cirque.Len cq =
      (Z.of_nat (length (cirque.enqueued ops)) - Z.of_nat (length (concat outs)))%Z ∧
    cirque.Dequeue cq (cirque.Len cq) = Some (cq', rest) ∧
    cirque.enqueued ops = concat outs ++ rest.
Proof.
  intros Hn.
  destruct (cirque_New_Inv (T:=T) n Hn) as (cq0 & HN & HI0 & _).
  destruct (run_Inv ops _ _ _ _ HI0) as (cq & outs & U & F & q & Hrun & HI & Heq).
  simpl in Heq.
  destruct (Dequeue_Inv _ _ _ _ (cirque.Len cq) HI) as (cq' & HD & _).
  pose proof (Inv_Len _ _ _ _ HI) as HLen.
  exists cq0, cq, outs, cq', q. split_and!; try done.
  - rewrite HLen, Heq, length_app. lia.
  - rewrite HD, HLen, Nat2Z.id, firstn_all. done.
Qed.

Lemma X17_sequential_growth_transparency_witness :
  ∃ cq0 cq outs cq' rest,
    cirque.New Z 1 = Some cq0 ∧
    cirque.run cq0 [cirque.OpEnqueue [1; 2; 3]%Z; cirque.OpDequeue 2;
                    cirque.OpEnqueue [4; 5]%Z; cirque.OpDequeue 1]
      = Some (cq, outs) ∧
    cirque.Len cq =
      (Z.of_nat (length (cirque.enqueued
         [cirque.OpEnqueue [1; 2; 3]%Z; cirque.OpDequeue 2;
          cirque.OpEnqueue [4; 5]%Z; cirque.OpDequeue 1]))
       - Z.of_nat (length (concat outs)))%Z ∧
    cirque.Dequeue cq (cirque.Len cq) = Some (cq', rest) ∧
    cirque.enqueued [cirque.OpEnqueue [1; 2; 3]%Z; cirque.OpDequeue 2;
                     cirque.OpEnqueue [4; 5]%Z; cirque.OpDequeue 1]
      = concat outs ++ rest.
Proof.
  apply (X17_sequential_growth_transparency Z 1%Z). lia.
Defined.
